(** * Observatory island: terrain height field and terrain texture

    A shallow embedding of the numeric kernel of
    [public/models/observatory_island_authentic.py]
    (class [ObservatoryIslandGenerator]): [__init__],
    [calculate_terrain_height], [get_surface_noise], [lerp_color] and
    [create_detailed_terrain_texture]; then of the vertex loop of
    [create_island_terrain], of [create_terrain_normal_map] and of the
    placement of the rocks in [create_high_detail_rocks]; and of the name
    and category functions of the asset tools
    ([scripts/extract_forest_models.py],
    [src/game/tools/organize_assets.py], [src/game/tools/extract_models.py]).

    Python floats are idealised as real numbers ([R]): rounding, overflow,
    infinities and NaN are outside that model.  What Python raises is kept:
    [/] raises [ZeroDivisionError] on a zero divisor and [math.sqrt] raises
    [ValueError] on a negative argument.  The module-level generator behind
    [random.random()] is an explicit stream of reals with a read position.

    Which positions make the height function raise depends on overflow, so
    [calculate_terrain_height] and [get_surface_noise] are embedded a second
    time, in [Doubles], over doubles with infinities and NaN (exact
    arithmetic that overflows at [2^1024]). *)

From Stdlib Require Import Ascii String.
From Stdlib Require Import Reals Lra Lia List ZArith.
Import ListNotations.

Open Scope R_scope.

(** ** Exceptions and results *)

Inductive exn : Type :=
| ZeroDivisionError
| ValueError.

Inductive result (A : Type) : Type :=
| Ok (a : A)
| Raise (e : exn).

Arguments Ok {A} a.
Arguments Raise {A} e.

Definition bind {A B : Type} (m : result A) (k : A -> result B) : result B :=
  match m with
  | Ok a => k a
  | Raise e => Raise e
  end.

Notation "x <- m ;; k" := (bind m (fun x => k))
  (at level 61, m at next level, right associativity).

(** [a / b] on Python numbers. *)
Definition py_div (a b : R) : result R :=
  if Req_dec_T b 0 then Raise ZeroDivisionError else Ok (a / b).

(** [math.sqrt(v)]. *)
Definition math_sqrt (v : R) : result R :=
  if Rlt_dec v 0 then Raise ValueError else Ok (sqrt v).

(** ** Configuration *)

Record TerrainParameters : Type := {
  hill_height : R;
  hill_radius : R;
  island_radius : R;
  edge_height : R;
  edge_falloff : R;
  waterfall_start : R;
  base_ground_level : R
}.

Record ObservatoryIslandGenerator : Type := {
  terrain_params : TerrainParameters;
  segments : Z;
  total_size : Z
}.

(** The dictionary literal of [__init__]. *)
Definition default_terrain_params : TerrainParameters := {|
  hill_height := 15;
  hill_radius := 100;
  island_radius := 220;
  edge_height := 8;
  edge_falloff := 30;
  waterfall_start := 210;
  base_ground_level := -5
|}.

(** [__init__]: it takes no configuration, stores the dictionary literal
    and the two mesh sizes, and validates nothing. *)
Definition init : result ObservatoryIslandGenerator :=
  Ok {| terrain_params := default_terrain_params;
        segments := 128;
        total_size := 500 |}.

(** ** Surface noise *)

Record Octave : Type := {
  freq : R;
  amp : R;
  angle_x : R;
  angle_z : R;
  phase_x : R;
  phase_z : R
}.

Definition octaves : list Octave := [
  {| freq := 0.08; amp := 0.25; angle_x := PI / 7.3; angle_z := PI / 3.7;
     phase_x := 2.1; phase_z := 5.8 |};
  {| freq := 0.15; amp := 0.15; angle_x := PI / 2.8; angle_z := PI / 5.2;
     phase_x := 1.7; phase_z := 3.4 |};
  {| freq := 0.32; amp := 0.08; angle_x := PI / 4.1; angle_z := PI / 6.9;
     phase_x := 4.2; phase_z := 1.9 |};
  {| freq := 0.67; amp := 0.04; angle_x := PI / 1.9; angle_z := PI / 8.3;
     phase_x := 0.9; phase_z := 6.1 |};
  {| freq := 1.23; amp := 0.02; angle_x := PI / 3.4; angle_z := PI / 2.1;
     phase_x := 3.8; phase_z := 2.7 |}
].

(** One turn of the loop body of [get_surface_noise]: the value added to
    [noise] for one octave. *)
Definition octave_term (x z : R) (octave : Octave) : R :=
  let x1 := x * cos (angle_x octave) - z * sin (angle_x octave) in
  let z1 := x * sin (angle_z octave) + z * cos (angle_z octave) in
  let noise_value :=
    sin ((x1 + phase_x octave) * freq octave) *
    cos ((z1 + phase_z octave) * freq octave) in
  noise_value * amp octave.

(** The accumulating loop, over any octave table. *)
Definition noise_loop (table : list Octave) (x z : R) (noise : R) : R :=
  fold_left (fun acc octave => acc + octave_term x z octave) table noise.

Definition get_surface_noise (x z : R) : R :=
  noise_loop octaves x z 0.

(** ** Terrain height *)

Definition calculate_terrain_height (p : TerrainParameters) (x z : R) : result R :=
  distance_from_center <- math_sqrt (x * x + z * z) ;;
  height <-
    (if Rlt_dec distance_from_center (hill_radius p) then
       ratio <- py_div distance_from_center (hill_radius p) ;;
       let height_multiplier := cos (ratio * PI * 0.5) in
       Ok (base_ground_level p +
           hill_height p * height_multiplier * height_multiplier)
     else Ok (base_ground_level p)) ;;
  let height :=
    if Rge_dec distance_from_center (island_radius p) then
      let void_distance := distance_from_center - island_radius p in
      base_ground_level p - (void_distance * 0.1) ^ 2
    else height in
  Ok (height + get_surface_noise x z).

(** The noise-free elevation as a function of the distance [d] from the
    centre alone, written after steps 2 to 4 of section 4.2 of the
    specification (dome below [hill_radius], flat shelf from there on,
    overridden by the void falloff from [island_radius] on);
    [calculate_terrain_height] is compared with it below. *)
Definition radial_profile (p : TerrainParameters) (d : R) : R :=
  let shelf_or_dome :=
    if Rlt_dec d (hill_radius p) then
      base_ground_level p +
      hill_height p * (cos (d / hill_radius p * (PI / 2))) ^ 2
    else base_ground_level p in
  if Rge_dec d (island_radius p) then
    base_ground_level p - ((d - island_radius p) * 0.1) ^ 2
  else shelf_or_dome.

(** ** Colours *)

(** A colour is the 4-tuple [(r, g, b, a)] of the source; [c0] .. [c3] are
    [color[0]] .. [color[3]]. *)
Record Color : Type := rgba { c0 : R; c1 : R; c2 : R; c3 : R }.

Definition grass_center : Color := rgba 0.239 0.376 0.090 1.0.
Definition medium_green : Color := rgba 0.176 0.314 0.090 1.0.
Definition sandy_beach : Color := rgba 0.761 0.698 0.502 1.0.
Definition darker_sand : Color := rgba 0.631 0.565 0.376 1.0.
Definition wet_sand : Color := rgba 0.545 0.451 0.333 1.0.

Definition lerp_color (color1 color2 : Color) (t : R) : Color :=
  rgba (c0 color1 + (c0 color2 - c0 color1) * t)
       (c1 color1 + (c1 color2 - c1 color1) * t)
       (c2 color1 + (c2 color2 - c2 color1) * t)
       1.0.

(** The [if]/[elif] chain on [normalized_dist] that picks the base colour
    of a pixel in [create_detailed_terrain_texture]. *)
Definition gradient_color (normalized_dist : R) : Color :=
  if Rle_dec normalized_dist 0.0 then grass_center
  else if Rle_dec normalized_dist 0.4 then
    lerp_color grass_center medium_green (normalized_dist / 0.4)
  else if Rle_dec normalized_dist 0.7 then
    lerp_color medium_green sandy_beach ((normalized_dist - 0.4) / 0.3)
  else if Rle_dec normalized_dist 0.85 then
    lerp_color sandy_beach darker_sand ((normalized_dist - 0.7) / 0.15)
  else
    lerp_color darker_sand wet_sand ((normalized_dist - 0.85) / 0.15).

(** Python's [min(a, b)] and [max(a, b)]: the first argument unless the
    second is strictly smaller (larger). *)
Definition py_min (a b : R) : R := if Rlt_dec b a then b else a.
Definition py_max (a b : R) : R := if Rgt_dec b a then b else a.

(** ** The random source *)

(** The state of the generator behind [random.random()]: the values it will
    return, in order, and how many have been drawn. *)
Record RandomState : Type := {
  stream : nat -> R;
  pos : nat
}.

(** Computations that draw random numbers and may raise. *)
Definition M (A : Type) : Type := RandomState -> result (A * RandomState).

Definition ret {A : Type} (a : A) : M A := fun s => Ok (a, s).

Definition mbind {A B : Type} (m : M A) (k : A -> M B) : M B :=
  fun s =>
    match m s with
    | Ok (a, s') => k a s'
    | Raise e => Raise e
    end.

Definition lift {A : Type} (r : result A) : M A :=
  fun s =>
    match r with
    | Ok a => Ok (a, s)
    | Raise e => Raise e
    end.

Notation "x <~ m ;; k" := (mbind m (fun x => k))
  (at level 61, m at next level, right associativity).

(** [random.random()]. *)
Definition random_random : M R :=
  fun s => Ok (stream s (pos s), {| stream := stream s; pos := S (pos s) |}).

(** ** Texture synthesis *)

(** The tuples [grass_color], [sand_color] and [final_color] of the source,
    as functions of the colour so far and of the brightness (or noise)
    drawn. *)
Definition grass_color (color : Color) (grass_brightness : R) : Color :=
  rgba (py_min 1.0 (c0 color + grass_brightness * 0.3))
       (py_min 1.0 (c1 color + grass_brightness * 0.5))
       (py_min 1.0 (c2 color + grass_brightness * 0.2))
       1.0.

Definition sand_color (color : Color) (sand_brightness : R) : Color :=
  rgba (py_min 1.0 (c0 color + sand_brightness * 0.4))
       (py_min 1.0 (c1 color + sand_brightness * 0.3))
       (py_min 1.0 (c2 color + sand_brightness * 0.2))
       1.0.

Definition final_color (color : Color) (noise : R) : Color :=
  rgba (py_max 0.0 (py_min 1.0 (c0 color + noise)))
       (py_max 0.0 (py_min 1.0 (c1 color + noise)))
       (py_max 0.0 (py_min 1.0 (c2 color + noise)))
       1.0.

(** "Add grass texture details". *)
Definition grass_detail (width : Z) (dist_from_center : R) (color : Color) : M Color :=
  if Rlt_dec dist_from_center (IZR width * 0.4) then
    r0 <~ random_random ;;
    let grass_noise := r0 * 0.1 - 0.05 in
    r1 <~ random_random ;;
    if Rlt_dec r1 0.002 then
      r2 <~ random_random ;;
      let grass_brightness := r2 * 0.4 + 0.2 in
      ret (grass_color color grass_brightness)
    else ret color
  else ret color.

(** "Add sand texture details". *)
Definition sand_detail (width : Z) (dist_from_center : R) (color : Color) : M Color :=
  if Rgt_dec dist_from_center (IZR width * 0.3) then
    r0 <~ random_random ;;
    if Rlt_dec r0 0.001 then
      r1 <~ random_random ;;
      let sand_brightness := r1 * 0.3 + 0.3 in
      ret (sand_color color sand_brightness)
    else ret color
  else ret color.

(** "Add noise overlay". *)
Definition noise_overlay (color : Color) : M Color :=
  r0 <~ random_random ;;
  let noise := (r0 - 0.5) * 0.08 in
  ret (final_color color noise).

(** What follows the choice of the base colour in the loop body: the two
    detail passes, then the noise overlay. *)
Definition detail_and_dither (width : Z) (dist_from_center : R) (color : Color) : M Color :=
  color <~ grass_detail width dist_from_center color ;;
  color <~ sand_detail width dist_from_center color ;;
  noise_overlay color.

(** The body of the inner loop: the final colour of pixel [(x, y)]. *)
Definition texture_pixel (width center_x center_y : Z) (max_radius : R)
    (x y : Z) : M Color :=
  dist_from_center <~
    lift (math_sqrt (IZR ((x - center_x) ^ 2 + (y - center_y) ^ 2))) ;;
  normalized_dist <~ lift (py_div dist_from_center max_radius) ;;
  let color := gradient_color normalized_dist in
  detail_and_dither width dist_from_center color.

(** [pixels.extend(final_color)]. *)
Definition extend (pixels : list R) (c : Color) : list R :=
  pixels ++ [c0 c; c1 c; c2 c; c3 c].

(** [range(n)]. *)
Definition range (n : Z) : list Z := map Z.of_nat (seq 0 (Z.to_nat n)).

(** A [for] loop over a list that updates the pixel buffer. *)
Fixpoint for_each {A : Type} (l : list A) (body : A -> list R -> M (list R))
    (pixels : list R) : M (list R) :=
  match l with
  | [] => ret pixels
  | a :: l' => pixels' <~ body a pixels ;; for_each l' body pixels'
  end.

(** The two nested loops for an image of [width] by [height] pixels. *)
Definition synthesize (width height : Z) : M (list R) :=
  let center_x := (width / 2)%Z in
  let center_y := (height / 2)%Z in
  let max_radius := IZR (Z.min center_x center_y) * 0.98 in
  for_each (range height)
    (fun y pixels =>
       for_each (range width)
         (fun x pixels =>
            final_color <~
              texture_pixel width center_x center_y max_radius x y ;;
            ret (extend pixels final_color))
         pixels)
    [].

(** The pixel buffer assigned to [image.pixels]; the source fixes
    [width, height = 1024, 1024]. *)
Definition create_detailed_terrain_texture : M (list R) :=
  synthesize 1024 1024.

(** ** Definitions used in the statements *)

(** The sum of the amplitudes of an octave table. *)
Definition amplitude_sum (table : list Octave) : R :=
  fold_right (fun octave acc => amp octave + acc) 0 table.

(** The invariant of section 3 of the specification on the two radii. *)
Definition valid_params (p : TerrainParameters) : Prop :=
  hill_radius p < island_radius p.

(** The default configuration with the hill radius set to zero. *)
Definition flat_params : TerrainParameters := {|
  hill_height := 15;
  hill_radius := 0;
  island_radius := 220;
  edge_height := 8;
  edge_falloff := 30;
  waterfall_start := 210;
  base_ground_level := -5
|}.

(** A well-formed pixel: colour channels in [0,1], alpha 1. *)
Definition pixel_ok (c : Color) : Prop :=
  0 <= c0 c <= 1 /\ 0 <= c1 c <= 1 /\ 0 <= c2 c <= 1 /\ c3 c = 1.

(** The channel-interleaved buffer of a list of pixels. *)
Definition interleave (cs : list Color) : list R :=
  flat_map (fun c => [c0 c; c1 c; c2 c; c3 c]) cs.

(** The generator state that returns the values of [l], then [dflt] for
    ever. *)
Definition stream_of (l : list R) (dflt : R) : RandomState :=
  {| stream := fun n => nth n l dflt; pos := 0 |}.

(** Two generator states that will return the same values from now on. *)
Definition same_draws (s1 s2 : RandomState) : Prop :=
  forall k : nat, stream s1 (pos s1 + k) = stream s2 (pos s2 + k).

(** Two runs that end alike: the same value after the same number of draws,
    with the same draws ahead, or the same exception. *)
Definition same_outcome {A : Type} (s1 s2 : RandomState)
    (r1 r2 : result (A * RandomState)) : Prop :=
  match r1, r2 with
  | Ok (a1, s1'), Ok (a2, s2') =>
      a1 = a2 /\
      (exists n : nat, pos s1' = (pos s1 + n)%nat /\ pos s2' = (pos s2 + n)%nat) /\
      same_draws s1' s2'
  | Raise e1, Raise e2 => e1 = e2
  | _, _ => False
  end.

(** A computation whose outcome depends on the generator only through the
    values it will return. *)
Definition stable {A : Type} (m : M A) : Prop :=
  forall s1 s2, same_draws s1 s2 -> same_outcome s1 s2 (m s1) (m s2).

(** ** The rest of the generator *)

(** A vertex of the mesh, [(co.x, co.y, co.z)]. *)
Definition Vertex : Type := (R * R * R)%type.

(** The loop of [create_island_terrain] over [bm.verts]: every vertex gets
    the terrain height at its [(x, y)] as its [z].  The vertices themselves
    come from the subdivided plane of the host and are the argument here. *)
Fixpoint displace_vertices (p : TerrainParameters) (verts : list Vertex)
    : result (list Vertex) :=
  match verts with
  | [] => Ok []
  | (x, y, _) :: rest =>
      height <- calculate_terrain_height p x y ;;
      rest' <- displace_vertices p rest ;;
      Ok ((x, y, height) :: rest')
  end.

(** A [for] loop without random draws. *)
Definition for_pure {A : Type} (l : list A) (body : A -> list R -> list R)
    (pixels : list R) : list R :=
  fold_left (fun acc a => body a acc) l pixels.

(** The two loops of [create_terrain_normal_map], for any size. *)
Definition normal_map (width height : Z) : list R :=
  for_pure (range height)
    (fun y pixels =>
       for_pure (range width)
         (fun x pixels => pixels ++ [0.5; 0.5; 1.0; 1.0])
         pixels)
    [].

(** The source fixes 512 by 512. *)
Definition create_terrain_normal_map : list R := normal_map 512 512.

(** What [create_high_detail_rocks] decides about one rock: where the
    sphere is added and with which radius, its rotation and scale, and the
    hue, saturation and value of its colour.  The objects, modifiers and
    shader nodes of the host are left out. *)
Record Rock : Type := {
  location : R * R * R;
  rock_radius : R;
  rotation_euler : R * R * R;
  rock_scale : R * R * R;
  rock_hsv : R * R * R
}.

(** One turn of the loop of [create_high_detail_rocks], with the draws in
    the order in which the source makes them. *)
Definition place_rock (p : TerrainParameters) : M Rock :=
  d0 <~ random_random ;;
  let angle := d0 * 2 * PI in
  d1 <~ random_random ;;
  let radius := 80 + d1 * 120 in
  let x := cos angle * radius in
  let y := sin angle * radius in
  height <~ lift (calculate_terrain_height p x y) ;;
  let z := height + 0.5 in
  d2 <~ random_random ;;
  d3 <~ random_random ;;
  d4 <~ random_random ;;
  d5 <~ random_random ;;
  d6 <~ random_random ;;
  d7 <~ random_random ;;
  d8 <~ random_random ;;
  d9 <~ random_random ;;
  d10 <~ random_random ;;
  d11 <~ random_random ;;
  ret {| location := (x, y, z);
         rock_radius := 1.5 + d2 * 2.5;
         rotation_euler := (d3 * 0.5, d4 * 0.5, d5 * 2 * PI);
         rock_scale := (0.8 + d6 * 0.4, 0.8 + d7 * 0.4, 0.7 + d8 * 0.3);
         rock_hsv := (0.08 + d9 * 0.08, 0.4 + d10 * 0.3, 0.2 + d11 * 0.4) |}.

(** The rocks in the order in which they are created, for [count] turns. *)
Fixpoint place_rocks (p : TerrainParameters) (count : nat) : M (list Rock) :=
  match count with
  | O => ret []
  | S count' =>
      rock <~ place_rock p ;;
      rocks <~ place_rocks p count' ;;
      ret (rock :: rocks)
  end.

(** [for i in range(8)]. *)
Definition create_high_detail_rocks (p : TerrainParameters) : M (list Rock) :=
  place_rocks p 8.

(** ** More definitions used in the statements *)

(** What [random.random()] promises: every value is in [0, 1). *)
Definition unit_draws (s : RandomState) : Prop :=
  forall n : nat, 0 <= stream s n < 1.

(** [v] lies between [a] and [b], whichever is the larger. *)
Definition between (v a b : R) : Prop := Rmin a b <= v <= Rmax a b.

(** Each colour channel of [c] lies between those of [ca] and [cb]. *)
Definition channels_between (c ca cb : Color) : Prop :=
  between (c0 c) (c0 ca) (c0 cb) /\
  between (c1 c) (c1 ca) (c1 cb) /\
  between (c2 c) (c2 ca) (c2 cb).

(** The generator state [s] with the value at its read position replaced
    by [v]. *)
Definition with_next_draw (s : RandomState) (v : R) : RandomState :=
  {| stream := fun n => if Nat.eqb n (pos s) then v else stream s n;
     pos := pos s |}.

(** From [s] to [s'] exactly [k] values were drawn. *)
Definition drew (k : nat) (s s' : RandomState) : Prop :=
  stream s' = stream s /\ pos s' = (k + pos s)%nat.

(** Where a rock may end up: between 80 and 200 from the centre, with its
    centre between -5.04 and -0.21 in height, and a radius from 1.5 up to
    4. *)
Definition rock_on_ring (rock : Rock) : Prop :=
  let '(x, y, z) := location rock in
  80 <= sqrt (x * x + y * y) < 200 /\
  -5.04 <= z <= -0.21 /\
  1.5 <= rock_radius rock < 4.

(** The colour of every pixel of the normal map. *)
Definition up_normal : Color := rgba 0.5 0.5 1.0 1.0.

(** A vertex of the plane of side 500 centred on the origin. *)
Definition on_plane (v : Vertex) : Prop :=
  let '(x, y, _) := v in -250 <= x <= 250 /\ -250 <= y <= 250.

(** A vertex moved straight up or down to a height between -186 and
    10.54. *)
Definition displaced (v v' : Vertex) : Prop :=
  let '(x, y, _) := v in
  let '(x', y', z') := v' in
  x' = x /\ y' = y /\ -186 <= z' <= 10.54.

(** ** The forest extraction script

    [scripts/extract_forest_models.py]: [setup_output_directories],
    [classify_object], [clean_object_name] and [get_object_bounds].  A
    Python [str] is a list of characters; object names are taken with
    character codes below 256, and [str.lower()] acts on the letters [A] to
    [Z] (no other character of that range becomes one of the characters the
    script looks for). *)

Definition text : Type := list ascii.

Definition txt (s : string) : text := list_ascii_of_string s.
Arguments txt s%_string.

Open Scope bool_scope.

Definition char_between (lo hi c : ascii) : bool :=
  (N_of_ascii lo <=? N_of_ascii c)%N && (N_of_ascii c <=? N_of_ascii hi)%N.

Definition is_upper (c : ascii) : bool := char_between "A" "Z" c.
Definition is_lower (c : ascii) : bool := char_between "a" "z" c.
Definition is_digit (c : ascii) : bool := char_between "0" "9" c.
Definition is_underscore (c : ascii) : bool := Ascii.eqb c "_".

Definition lower_char (c : ascii) : ascii :=
  if is_upper c then ascii_of_N (N_of_ascii c + 32) else c.

(** [s.lower()]. *)
Definition lower (s : text) : text := map lower_char s.

Fixpoint starts_with (keyword s : text) : bool :=
  match keyword, s with
  | [], _ => true
  | _ :: _, [] => false
  | k :: keyword', c :: s' => Ascii.eqb k c && starts_with keyword' s'
  end.

(** [keyword in s]. *)
Fixpoint contains (keyword s : text) : bool :=
  match s with
  | [] => starts_with keyword []
  | _ :: s' => starts_with keyword s || contains keyword s'
  end.

(** [any(keyword in name for keyword in keywords)]. *)
Definition any_keyword (keywords : list text) (name : text) : bool :=
  existsb (fun keyword => contains keyword name) keywords.

Definition classify_object (obj_name : text) : text :=
  let name := lower obj_name in
  if any_keyword [txt "pine"; txt "fir"; txt "tree"; txt "trunk"; txt "branch"] name
  then txt "trees"
  else if any_keyword [txt "rock"; txt "stone"; txt "boulder"] name
  then txt "rocks"
  else if any_keyword [txt "grass"; txt "fern"; txt "plant"; txt "leaf"] name
  then txt "vegetation"
  else if any_keyword [txt "ground"; txt "terrain"; txt "soil"] name
  then txt "ground"
  else txt "other".

Definition base_path : text :=
  txt "/home/greggles/Merkin/MEGAMEAL/public/assets/game/shared".

(** The directories that [setup_output_directories] creates. *)
Definition setup_output_directories : list text := [
  base_path ++ txt "/models/trees";
  base_path ++ txt "/models/rocks";
  base_path ++ txt "/models/vegetation";
  base_path ++ txt "/models/ground";
  base_path ++ txt "/textures/trees";
  base_path ++ txt "/textures/rocks";
  base_path ++ txt "/textures/vegetation";
  base_path ++ txt "/textures/ground"
].

(** The keys of the dictionary [extracted_models] of [main]. *)
Definition extracted_models_keys : list text :=
  [txt "trees"; txt "rocks"; txt "vegetation"; txt "ground"; txt "other"].

(** The directory of [os.path.join(output_path, "models", category,
    filename)] in [export_object_as_glb], called with the base path. *)
Definition export_directory (category : text) : text :=
  base_path ++ txt "/models/" ++ category.

(** [re.sub(r'[^a-zA-Z0-9_]', '_', name)]. *)
Definition is_word_char (c : ascii) : bool :=
  is_lower c || is_upper c || is_digit c || is_underscore c.

Definition replace_special (name : text) : text :=
  map (fun c => if is_word_char c then c else "_"%char) name.

(** [re.sub(r'_+', '_', cleaned)]: every run of underscores becomes one. *)
Fixpoint squeeze_underscores (s : text) : text :=
  match s with
  | [] => []
  | c :: rest =>
      if is_underscore c then
        match rest with
        | d :: _ =>
            if is_underscore d then squeeze_underscores rest
            else c :: squeeze_underscores rest
        | [] => [c]
        end
      else c :: squeeze_underscores rest
  end.

(** [s.strip('_')], the leading underscores and then the trailing ones. *)
Fixpoint lstrip_underscores (s : text) : text :=
  match s with
  | [] => []
  | c :: rest => if is_underscore c then lstrip_underscores rest else s
  end.

Fixpoint rstrip_underscores (s : text) : text :=
  match s with
  | [] => []
  | c :: rest =>
      match rstrip_underscores rest with
      | [] => if is_underscore c then [] else [c]
      | kept => c :: kept
      end
  end.

Definition strip_underscores (s : text) : text :=
  rstrip_underscores (lstrip_underscores s).

Definition clean_object_name (name : text) : text :=
  let cleaned := replace_special name in
  let cleaned := squeeze_underscores cleaned in
  lower (strip_underscores cleaned).

(** [min(l)] and [max(l)] on a list of numbers. *)
Definition py_min_list (l : list R) : result R :=
  match l with
  | [] => Raise ValueError
  | a :: rest => Ok (fold_left py_min rest a)
  end.

Definition py_max_list (l : list R) : result R :=
  match l with
  | [] => Raise ValueError
  | a :: rest => Ok (fold_left py_max rest a)
  end.

Record Bounds : Type := {
  bounds_width : R;
  bounds_height : R;
  bounds_depth : R
}.

(** [get_object_bounds], of the type of the object and the corners of its
    bounding box; [None] is Python's [None]. *)
Definition get_object_bounds (obj_type : text) (bbox : list (R * R * R))
    : result (option Bounds) :=
  if list_eq_dec ascii_dec obj_type (txt "MESH") then
    min_x <- py_min_list (map (fun v => fst (fst v)) bbox) ;;
    max_x <- py_max_list (map (fun v => fst (fst v)) bbox) ;;
    min_y <- py_min_list (map (fun v => snd (fst v)) bbox) ;;
    max_y <- py_max_list (map (fun v => snd (fst v)) bbox) ;;
    min_z <- py_min_list (map (fun v => snd v) bbox) ;;
    max_z <- py_max_list (map (fun v => snd v) bbox) ;;
    Ok (Some {| bounds_width := max_x - min_x;
                bounds_height := max_y - min_y;
                bounds_depth := max_z - min_z |})
  else Ok None.

(** A character that [clean_object_name] can leave in a name. *)
Definition is_clean_char (c : ascii) : bool :=
  is_lower c || is_digit c || is_underscore c.

(** No two underscores in a row. *)
Fixpoint single_underscores (s : text) : bool :=
  match s with
  | c :: (d :: _) as rest =>
      negb (is_underscore c && is_underscore d) && single_underscores rest
  | _ => true
  end.

(** A letter or a digit. *)
Definition is_alnum (c : ascii) : bool :=
  is_lower c || is_upper c || is_digit c.

(** ** The other asset tools

    [src/game/tools/organize_assets.py]: [categorize_scifi_model],
    [categorize_nature_model] and the categories that
    [update_library_manifest] scans; [src/game/tools/extract_models.py]:
    [categorize_object] and the categories for which [extract_models]
    creates a directory. *)

Definition categorize_scifi_model (filename : text) : text :=
  let name_lower := lower filename in
  if contains (txt "alien_") name_lower then txt "decorative"
  else if any_keyword
            [txt "column_"; txt "wall"; txt "bottom"; txt "top"; txt "short"]
            name_lower
  then txt "structures"
  else if any_keyword [txt "platform_"; txt "door_"] name_lower
  then txt "structures"
  else if contains (txt "prop_") name_lower then txt "decorative"
  else if contains (txt "decal_") name_lower then txt "decorative"
  else txt "structures".

Definition categorize_nature_model (filename : text) : text :=
  let name_lower := lower filename in
  if any_keyword
       [txt "tree"; txt "pine"; txt "fir"; txt "oak"; txt "trunk"; txt "branch"]
       name_lower
  then txt "trees"
  else if any_keyword [txt "rock"; txt "stone"; txt "boulder"; txt "cliff"]
            name_lower
  then txt "rocks"
  else if any_keyword
            [txt "grass"; txt "fern"; txt "bush"; txt "plant"; txt "flower";
             txt "leaf"]
            name_lower
  then txt "vegetation"
  else if any_keyword [txt "log"; txt "stump"; txt "mushroom"; txt "debris"]
            name_lower
  then txt "decorative"
  else txt "vegetation".

(** [categories] in [update_library_manifest]. *)
Definition library_categories : list text :=
  [txt "trees"; txt "rocks"; txt "vegetation"; txt "structures";
   txt "decorative"].

(** [categorize_object] of [extract_models.py]; [obj_type] is a parameter
    of the source that its body does not read. *)
Definition categorize_object (obj_name obj_type : text) : text :=
  let name_lower := lower obj_name in
  if any_keyword [txt "pine"; txt "fir"; txt "tree"; txt "trunk"; txt "branch"]
       name_lower
  then txt "trees"
  else if any_keyword [txt "rock"; txt "stone"; txt "boulder"; txt "cliff"]
            name_lower
  then txt "rocks"
  else if any_keyword
            [txt "grass"; txt "fern"; txt "bush"; txt "plant"; txt "vegetation"]
            name_lower
  then txt "vegetation"
  else if any_keyword [txt "ruin"; txt "wall"; txt "structure"; txt "building"]
            name_lower
  then txt "structures"
  else if any_keyword [txt "log"; txt "stump"; txt "mushroom"; txt "debris"]
            name_lower
  then txt "decorative"
  else txt "misc".

(** [categories] in [extract_models]. *)
Definition extract_categories : list text :=
  [txt "trees"; txt "rocks"; txt "vegetation"; txt "structures";
   txt "decorative"; txt "misc"].

(** ** Doubles with their infinities

    A second embedding of [calculate_terrain_height] and
    [get_surface_noise], for the question of which inputs make them raise.
    A double is a real number, an infinity or a NaN.  Arithmetic is exact,
    so rounding is still left out, but a result of magnitude [2^1024] or
    more is infinite.  As in Python, [/] raises [ZeroDivisionError] on a
    zero divisor, [math.sqrt] raises [ValueError] on a negative number,
    [math.sin] and [math.cos] raise [ValueError] on an infinity, and
    [pow] raises [OverflowError] when a finite number has a square of
    magnitude [2^1024] or more. *)
Module Doubles.

Inductive exn : Type :=
| ZeroDivisionError
| ValueError
| OverflowError.

Inductive result (A : Type) : Type :=
| Ok (a : A)
| Raise (e : exn).

Arguments Ok {A} a.
Arguments Raise {A} e.

Definition bind {A B : Type} (m : result A) (k : A -> result B) : result B :=
  match m with
  | Ok a => k a
  | Raise e => Raise e
  end.

Notation "x <== m ;; k" := (bind m (fun x => k))
  (at level 61, m at next level, right associativity).

Inductive double : Type :=
| Fin (r : R)
| PInf
| NInf
| NaN.

(** The least magnitude that is no longer a finite double. *)
Definition limit : R := IZR (2 ^ 1024).

(** The double of an exact result. *)
Definition fit (r : R) : double :=
  if Rle_dec limit r then PInf
  else if Rle_dec r (- limit) then NInf
  else Fin r.

Definition opp (a : double) : double :=
  match a with
  | Fin r => Fin (- r)
  | PInf => NInf
  | NInf => PInf
  | NaN => NaN
  end.

Definition add (a b : double) : double :=
  match a, b with
  | NaN, _ | _, NaN => NaN
  | Fin x, Fin y => fit (x + y)
  | PInf, NInf | NInf, PInf => NaN
  | PInf, _ | _, PInf => PInf
  | NInf, _ | _, NInf => NInf
  end.

Definition sub (a b : double) : double := add a (opp b).

(** An infinity times a finite number. *)
Definition scale_infinity (inf : double) (r : R) : double :=
  if Rlt_dec 0 r then inf
  else if Rlt_dec r 0 then opp inf
  else NaN.

Definition mul (a b : double) : double :=
  match a, b with
  | NaN, _ | _, NaN => NaN
  | Fin x, Fin y => fit (x * y)
  | Fin x, PInf | PInf, Fin x => scale_infinity PInf x
  | Fin x, NInf | NInf, Fin x => scale_infinity NInf x
  | PInf, PInf | NInf, NInf => PInf
  | PInf, NInf | NInf, PInf => NInf
  end.

(** [a < b] and [a >= b]; every comparison with a NaN is false. *)
Definition lt (a b : double) : bool :=
  match a, b with
  | Fin x, Fin y => if Rlt_dec x y then true else false
  | NInf, Fin _ | NInf, PInf | Fin _, PInf => true
  | _, _ => false
  end.

Definition ge (a b : double) : bool :=
  match a, b with
  | Fin x, Fin y => if Rge_dec x y then true else false
  | PInf, Fin _ | PInf, NInf | PInf, PInf
  | Fin _, NInf | NInf, NInf => true
  | _, _ => false
  end.

(** [a / b]. *)
Definition py_div (a b : double) : result double :=
  match b with
  | Fin y =>
      if Req_dec_T y 0 then Raise ZeroDivisionError
      else Ok match a with
              | Fin x => fit (x / y)
              | PInf => scale_infinity PInf y
              | NInf => scale_infinity NInf y
              | NaN => NaN
              end
  | PInf | NInf =>
      Ok match a with
         | Fin _ => Fin 0
         | _ => NaN
         end
  | NaN => Ok NaN
  end.

Definition math_sqrt (v : double) : result double :=
  match v with
  | Fin r => if Rlt_dec r 0 then Raise ValueError else Ok (Fin (sqrt r))
  | PInf => Ok PInf
  | NInf => Raise ValueError
  | NaN => Ok NaN
  end.

Definition math_sin (v : double) : result double :=
  match v with
  | Fin r => Ok (Fin (sin r))
  | PInf | NInf => Raise ValueError
  | NaN => Ok NaN
  end.

Definition math_cos (v : double) : result double :=
  match v with
  | Fin r => Ok (Fin (cos r))
  | PInf | NInf => Raise ValueError
  | NaN => Ok NaN
  end.

(** [pow(v, 2)]. *)
Definition pow2 (v : double) : result double :=
  match v with
  | Fin r => if Rle_dec limit (r * r) then Raise OverflowError
             else Ok (Fin (r * r))
  | PInf | NInf => Ok PInf
  | NaN => Ok NaN
  end.

(** The loop body of [get_surface_noise]. *)
Definition octave_term (x z : double) (octave : Octave) : result double :=
  cos_x <== math_cos (Fin (angle_x octave)) ;;
  sin_x <== math_sin (Fin (angle_x octave)) ;;
  let x1 := sub (mul x cos_x) (mul z sin_x) in
  sin_z <== math_sin (Fin (angle_z octave)) ;;
  cos_z <== math_cos (Fin (angle_z octave)) ;;
  let z1 := add (mul x sin_z) (mul z cos_z) in
  s <== math_sin (mul (add x1 (Fin (phase_x octave))) (Fin (freq octave))) ;;
  c <== math_cos (mul (add z1 (Fin (phase_z octave))) (Fin (freq octave))) ;;
  let noise_value := mul s c in
  Ok (mul noise_value (Fin (amp octave))).

Fixpoint noise_loop (table : list Octave) (x z : double) (noise : double)
    : result double :=
  match table with
  | [] => Ok noise
  | octave :: rest =>
      term <== octave_term x z octave ;;
      noise_loop rest x z (add noise term)
  end.

Definition get_surface_noise (x z : double) : result double :=
  noise_loop octaves x z (Fin 0).

Definition calculate_terrain_height (p : TerrainParameters) (x z : double)
    : result double :=
  distance_from_center <== math_sqrt (add (mul x x) (mul z z)) ;;
  height <==
    (if lt distance_from_center (Fin (hill_radius p)) then
       ratio <== py_div distance_from_center (Fin (hill_radius p)) ;;
       height_multiplier <== math_cos (mul (mul ratio (Fin PI)) (Fin 0.5)) ;;
       Ok (add (Fin (base_ground_level p))
               (mul (mul (Fin (hill_height p)) height_multiplier)
                    height_multiplier))
     else Ok (Fin (base_ground_level p))) ;;
  height <==
    (if ge distance_from_center (Fin (island_radius p)) then
       let void_distance := sub distance_from_center (Fin (island_radius p)) in
       square <== pow2 (mul void_distance (Fin 0.1)) ;;
       Ok (sub (Fin (base_ground_level p)) square)
     else Ok height) ;;
  noise <== get_surface_noise x z ;;
  Ok (add height noise).

End Doubles.

(** An octave whose numbers are of ordinary size. *)
Definition octave_ordinary (octave : Octave) : Prop :=
  0 <= amp octave <= 1 /\
  0 <= freq octave <= 2 /\
  Rabs (phase_x octave) <= 10 /\
  Rabs (phase_z octave) <= 10.

(** * Properties *)

(** ** Height field *)

Section HeightField.

Variable p : TerrainParameters.

(** The argument of [math.sqrt] is a sum of two squares: no [ValueError]. *)
Lemma math_sqrt_sum_squares (x z : R) :
  math_sqrt (x * x + z * z) = Ok (sqrt (x * x + z * z)).
Proof.
  unfold math_sqrt.
  destruct (Rlt_dec (x * x + z * z) 0) as [Hneg | _]; [nra | reflexivity].
Qed.

(** The source computes the specification's radial profile, plus noise, and
    raises nothing: the division is only reached with a positive divisor. *)
Lemma calculate_terrain_height_profile (x z : R) :
  calculate_terrain_height p x z =
  Ok (radial_profile p (sqrt (x * x + z * z)) + get_surface_noise x z).
Proof.
  unfold calculate_terrain_height, radial_profile.
  rewrite math_sqrt_sum_squares. cbn [bind].
  pose proof (sqrt_pos (x * x + z * z)) as Hd.
  set (d := sqrt (x * x + z * z)) in *.
  destruct (Rlt_dec d (hill_radius p)) as [Hhill | Hhill].
  - unfold py_div.
    destruct (Req_dec_T (hill_radius p) 0) as [Hzero | _]; [lra |].
    cbn [bind].
    replace (d / hill_radius p * PI * 0.5) with (d / hill_radius p * (PI / 2))
      by lra.
    destruct (Rge_dec d (island_radius p)); f_equal; ring.
  - cbn [bind]. destruct (Rge_dec d (island_radius p)); reflexivity.
Qed.

Lemma sqrt_on_axis (a : R) : 0 <= a -> sqrt (a * a + 0 * 0) = a.
Proof.
  intros Ha. replace (a * a + 0 * 0) with (Rsqr a) by (unfold Rsqr; ring).
  now apply sqrt_Rsqr.
Qed.

Lemma radial_profile_void (d : R) :
  island_radius p <= d ->
  radial_profile p d = base_ground_level p - ((d - island_radius p) * 0.1) ^ 2.
Proof.
  intros Hd. unfold radial_profile.
  destruct (Rge_dec d (island_radius p)); [reflexivity | lra].
Qed.

Lemma radial_profile_shelf (d : R) :
  hill_radius p <= d -> d < island_radius p ->
  radial_profile p d = base_ground_level p.
Proof.
  intros Hlo Hhi. unfold radial_profile.
  destruct (Rge_dec d (island_radius p)); [lra |].
  destruct (Rlt_dec d (hill_radius p)); [lra | reflexivity].
Qed.

End HeightField.

(** *** Point evaluations *)

(** C3. With the default parameters (hill height 15, hill radius 100,
    island radius 220, base ground level -5) the height function returns
    [10 + noise(0,0)] at the centre, [-5 + noise(150,0)] on the flat shelf
    and [-69 + noise(300,0)] in the void, 80 units past the island edge. *)
Theorem height_scenarios :
  calculate_terrain_height default_terrain_params 0 0 =
    Ok (10 + get_surface_noise 0 0) /\
  calculate_terrain_height default_terrain_params 150 0 =
    Ok (-5 + get_surface_noise 150 0) /\
  calculate_terrain_height default_terrain_params 300 0 =
    Ok (-69 + get_surface_noise 300 0).
Proof.
  repeat split; rewrite calculate_terrain_height_profile;
    rewrite sqrt_on_axis by lra; do 2 f_equal.
  - unfold radial_profile; cbn [default_terrain_params hill_radius
      island_radius base_ground_level hill_height].
    destruct (Rge_dec 0 220); [lra |].
    destruct (Rlt_dec 0 100); [| lra].
    replace (0 / 100 * (PI / 2)) with 0 by lra.
    rewrite cos_0. lra.
  - rewrite radial_profile_shelf; cbn; try lra.
  - rewrite radial_profile_void; cbn; lra.
Qed.

(** *** Radial dependence *)

(** C5. Two positions at the same distance from the centre have the same
    height once the noise of each is subtracted: the function returns at
    both, and the noise-free parts agree. *)
Theorem noise_free_height_radial (p : TerrainParameters) (x1 z1 x2 z2 : R) :
  x1 * x1 + z1 * z1 = x2 * x2 + z2 * z2 ->
  exists h1 h2,
    calculate_terrain_height p x1 z1 = Ok h1 /\
    calculate_terrain_height p x2 z2 = Ok h2 /\
    h1 - get_surface_noise x1 z1 = h2 - get_surface_noise x2 z2.
Proof.
  intros Hsame.
  exists (radial_profile p (sqrt (x1 * x1 + z1 * z1)) + get_surface_noise x1 z1).
  exists (radial_profile p (sqrt (x2 * x2 + z2 * z2)) + get_surface_noise x2 z2).
  repeat split; try apply calculate_terrain_height_profile.
  rewrite Hsame. ring.
Qed.

Lemma noise_free_height_radial_witness :
  3 * 3 + 4 * 4 = 5 * 5 + 0 * 0 /\
  exists h1 h2,
    calculate_terrain_height default_terrain_params 3 4 = Ok h1 /\
    calculate_terrain_height default_terrain_params 5 0 = Ok h2 /\
    h1 - get_surface_noise 3 4 = h2 - get_surface_noise 5 0.
Proof.
  split; [lra |].
  apply (noise_free_height_radial default_terrain_params 3 4 5 0); lra.
Defined.

(** *** The island edge *)

(** C6. For parameters with [hill_radius < island_radius]: at a distance
    equal to the island radius the height without noise is the base ground
    level, the value of the flat shelf; it is continuous there (positions
    close enough to the edge, on either side, are as close to the base
    ground level as wanted); beyond the edge it decreases strictly with the
    distance; and it has no lower bound. *)
Theorem island_edge_seam (p : TerrainParameters) (Hvalid : valid_params p) :
  (forall x z, sqrt (x * x + z * z) = island_radius p ->
     calculate_terrain_height p x z =
     Ok (base_ground_level p + get_surface_noise x z)) /\
  (forall eps, 0 < eps ->
     exists delta, 0 < delta /\
       forall x z, Rabs (sqrt (x * x + z * z) - island_radius p) < delta ->
         exists h, calculate_terrain_height p x z = Ok h /\
           Rabs (h - get_surface_noise x z - base_ground_level p) < eps) /\
  (forall x1 z1 x2 z2,
     island_radius p <= sqrt (x1 * x1 + z1 * z1) ->
     sqrt (x1 * x1 + z1 * z1) < sqrt (x2 * x2 + z2 * z2) ->
     exists h1 h2,
       calculate_terrain_height p x1 z1 = Ok h1 /\
       calculate_terrain_height p x2 z2 = Ok h2 /\
       h2 - get_surface_noise x2 z2 < h1 - get_surface_noise x1 z1) /\
  (forall bound, exists x h,
     island_radius p <= sqrt (x * x + 0 * 0) /\
     calculate_terrain_height p x 0 = Ok h /\
     h - get_surface_noise x 0 < bound).
Proof.
  unfold valid_params in Hvalid.
  split; [| split; [| split]].
  - intros x z Hedge. rewrite calculate_terrain_height_profile, Hedge.
    rewrite radial_profile_void by lra. do 2 f_equal. ring.
  - intros eps Heps.
    exists (Rmin (island_radius p - hill_radius p) (Rmin 1 eps)).
    split.
    + repeat apply Rmin_glb_lt; lra.
    + intros x z Hnear.
      eexists; split; [apply calculate_terrain_height_profile |].
      set (d := sqrt (x * x + z * z)) in *.
      pose proof (Rmin_l (island_radius p - hill_radius p) (Rmin 1 eps)) as Hm1.
      pose proof (Rmin_r (island_radius p - hill_radius p) (Rmin 1 eps)) as Hm2.
      pose proof (Rmin_l 1 eps) as Hm3.
      pose proof (Rmin_r 1 eps) as Hm4.
      apply Rabs_def2 in Hnear. destruct Hnear as [Hup Hdown].
      destruct (Rle_lt_dec (island_radius p) d) as [Hout | Hin].
      * rewrite radial_profile_void by assumption.
        apply Rabs_def1; nra.
      * rewrite radial_profile_shelf by lra.
        apply Rabs_def1; lra.
  - intros x1 z1 x2 z2 Hout Hlt.
    do 2 eexists; repeat split; try apply calculate_terrain_height_profile.
    rewrite !radial_profile_void by lra. nra.
  - intros bound.
    set (a := Rabs (base_ground_level p - bound)).
    assert (Ha : 0 <= a) by apply Rabs_pos.
    assert (Hab : base_ground_level p - bound <= a) by apply Rle_abs.
    pose proof (Rabs_pos (island_radius p)) as Hr0.
    pose proof (Rle_abs (island_radius p)) as Hr1.
    exists (Rabs (island_radius p) + 10 * (a + 1)).
    eexists. rewrite sqrt_on_axis by lra.
    split; [lra |].
    split; [rewrite calculate_terrain_height_profile;
            rewrite sqrt_on_axis by lra; reflexivity |].
    rewrite radial_profile_void by lra. nra.
Qed.

Lemma island_edge_seam_witness :
  valid_params default_terrain_params /\
  calculate_terrain_height default_terrain_params 220 0 =
    Ok (-5 + get_surface_noise 220 0).
Proof.
  assert (Hvalid : valid_params default_terrain_params)
    by (unfold valid_params; cbn; lra).
  split; [exact Hvalid |].
  apply (proj1 (island_edge_seam default_terrain_params Hvalid) 220 0).
  rewrite sqrt_on_axis by lra. reflexivity.
Defined.

(** ** Noise field *)

Lemma octave_term_bound (x z : R) (octave : Octave) :
  0 <= amp octave -> Rabs (octave_term x z octave) <= amp octave.
Proof.
  intros Hamp. unfold octave_term. cbv zeta.
  rewrite !Rabs_mult, (Rabs_pos_eq (amp octave)) by assumption.
  match goal with
  | |- Rabs (sin ?a) * Rabs (cos ?b) * _ <= _ =>
      assert (Hs : Rabs (sin a) <= 1)
        by (apply Rabs_le; pose proof (SIN_bound a); lra);
      assert (Hc : Rabs (cos b) <= 1)
        by (apply Rabs_le; pose proof (COS_bound b); lra);
      pose proof (Rabs_pos (sin a)) as Hs0;
      pose proof (Rabs_pos (cos b)) as Hc0;
      assert (Hsc : 0 <= Rabs (sin a) * Rabs (cos b) <= 1) by nra
  end.
  nra.
Qed.

(** The loop adds at most the amplitude of each octave it runs through. *)
Lemma noise_loop_bound (table : list Octave) (x z : R) :
  Forall (fun octave => 0 <= amp octave) table ->
  forall noise,
    Rabs (noise_loop table x z noise) <= Rabs noise + amplitude_sum table.
Proof.
  unfold noise_loop, amplitude_sum.
  induction 1 as [| octave table Hamp _ IH]; intros noise; cbn.
  - lra.
  - eapply Rle_trans; [apply IH |].
    pose proof (Rabs_triang noise (octave_term x z octave)).
    pose proof (octave_term_bound x z octave Hamp).
    lra.
Qed.

Lemma amplitude_sum_octaves : amplitude_sum octaves = 0.54.
Proof. cbn. lra. Qed.

(** C4. The noise never exceeds, in absolute value, 0.54, the sum of the
    amplitudes of the five octaves; nothing but the bounds of sine and
    cosine is used. *)
Theorem surface_noise_bound (x z : R) :
  Rabs (get_surface_noise x z) <= 0.54 /\
  amplitude_sum octaves = 0.25 + 0.15 + 0.08 + 0.04 + 0.02.
Proof.
  split; [| cbn; lra].
  unfold get_surface_noise.
  rewrite <- amplitude_sum_octaves.
  eapply Rle_trans; [apply noise_loop_bound |].
  - unfold octaves. repeat constructor; cbn; lra.
  - rewrite Rabs_R0. lra.
Qed.

(** ** Zone colours *)

Lemma gradient_color_outer_band (u : R) :
  0.85 < u ->
  gradient_color u = lerp_color darker_sand wet_sand ((u - 0.85) / 0.15).
Proof.
  intros Hu. unfold gradient_color.
  destruct (Rle_dec u 0.0); [lra |].
  destruct (Rle_dec u 0.4); [lra |].
  destruct (Rle_dec u 0.7); [lra |].
  destruct (Rle_dec u 0.85); [lra | reflexivity].
Qed.

(** At a normalised distance of exactly 1 the base colour is wet sand. *)
Lemma gradient_color_at_one : gradient_color 1 = wet_sand.
Proof.
  rewrite gradient_color_outer_band by lra.
  unfold lerp_color, wet_sand, darker_sand. cbn [c0 c1 c2].
  f_equal; lra.
Qed.

(** Past 1 the last band goes on: every channel falls below wet sand. *)
Lemma gradient_color_past_one (u : R) :
  1 < u ->
  c0 (gradient_color u) < c0 wet_sand /\
  c1 (gradient_color u) < c1 wet_sand /\
  c2 (gradient_color u) < c2 wet_sand.
Proof.
  intros Hu. rewrite gradient_color_outer_band by lra.
  unfold lerp_color, wet_sand, darker_sand. cbn [c0 c1 c2].
  repeat split; lra.
Qed.

(** C1 at a pixel of the 1024 by 1024 texture.  Pixel [(0, 512)] lies 512
    from the centre, so its normalised distance is [512 / 501.76], above 1;
    its base colour is not wet sand: the red channel is below [0.534], where
    wet sand has [0.545]. *)
Theorem gradient_color_not_clamped :
  exists dist u,
    math_sqrt (IZR ((0 - 1024 / 2) ^ 2 + (512 - 1024 / 2) ^ 2)) = Ok dist /\
    py_div dist (IZR (Z.min (1024 / 2) (1024 / 2)) * 0.98) = Ok u /\
    1 <= u /\
    gradient_color u <> wet_sand /\
    c0 (gradient_color u) < 0.534.
Proof.
  exists 512, (512 / (512 * 0.98)).
  replace ((0 - 1024 / 2) ^ 2 + (512 - 1024 / 2) ^ 2)%Z with 262144%Z
    by reflexivity.
  replace (Z.min (1024 / 2) (1024 / 2)) with 512%Z by reflexivity.
  assert (Hu : 1 < 512 / (512 * 0.98)) by lra.
  split.
  - replace (IZR 262144) with (512 * 512 + 0 * 0) by lra.
    rewrite math_sqrt_sum_squares, sqrt_on_axis by lra. reflexivity.
  - split.
    + unfold py_div.
      destruct (Req_dec_T (512 * 0.98) 0); [lra | reflexivity].
    + split; [lra |].
      pose proof (gradient_color_past_one _ Hu) as [Hred _].
      split.
      * intros Heq. rewrite Heq in Hred. lra.
      * rewrite gradient_color_outer_band by lra.
        unfold lerp_color, wet_sand, darker_sand. cbn [c0]. lra.
Qed.

(** ** Texture synthesis *)

(** *** Every pixel is a colour *)

Lemma clamp_unit (v : R) : 0 <= py_max 0.0 (py_min 1.0 v) <= 1.
Proof.
  unfold py_max, py_min.
  destruct (Rlt_dec v 1.0); destruct (Rgt_dec _ 0.0); lra.
Qed.

Lemma final_color_ok (color : Color) (noise : R) :
  pixel_ok (final_color color noise).
Proof.
  unfold pixel_ok, final_color. cbn [c0 c1 c2 c3].
  repeat split; try apply clamp_unit; lra.
Qed.

Lemma grass_detail_total (width : Z) (dist : R) (color : Color) (s : RandomState) :
  exists color' s', grass_detail width dist color s = Ok (color', s').
Proof.
  unfold grass_detail, mbind, random_random, ret.
  destruct (Rlt_dec dist (IZR width * 0.4)); [| eauto].
  cbn. destruct (Rlt_dec _ 0.002); eauto.
Qed.

Lemma sand_detail_total (width : Z) (dist : R) (color : Color) (s : RandomState) :
  exists color' s', sand_detail width dist color s = Ok (color', s').
Proof.
  unfold sand_detail, mbind, random_random, ret.
  destruct (Rgt_dec dist (IZR width * 0.3)); [| eauto].
  cbn. destruct (Rlt_dec _ 0.001); eauto.
Qed.

Lemma detail_and_dither_ok (width : Z) (dist : R) (color : Color) (s : RandomState) :
  exists color' s',
    detail_and_dither width dist color s = Ok (color', s') /\ pixel_ok color'.
Proof.
  unfold detail_and_dither, mbind.
  destruct (grass_detail_total width dist color s) as (cg & sg & ->).
  destruct (sand_detail_total width dist cg sg) as (cs & ss & ->).
  unfold noise_overlay, mbind, random_random, ret.
  do 2 eexists. split; [reflexivity | apply final_color_ok].
Qed.

Lemma squared_offsets_nonneg (a b : Z) : 0 <= IZR (a ^ 2 + b ^ 2).
Proof. apply IZR_le. nia. Qed.

Lemma texture_pixel_ok (width center_x center_y : Z) (max_radius : R)
    (x y : Z) (s : RandomState) :
  max_radius <> 0 ->
  exists color s',
    texture_pixel width center_x center_y max_radius x y s = Ok (color, s') /\
    pixel_ok color.
Proof.
  intros Hradius.
  unfold texture_pixel, mbind, lift, math_sqrt, py_div.
  pose proof (squared_offsets_nonneg (x - center_x) (y - center_y)).
  destruct (Rlt_dec _ 0); [lra |].
  destruct (Req_dec_T max_radius 0); [contradiction |].
  apply detail_and_dither_ok.
Qed.

Lemma interleave_snoc (cs : list Color) (c : Color) :
  interleave (cs ++ [c]) = extend (interleave cs) c.
Proof.
  unfold interleave, extend. rewrite flat_map_app. reflexivity.
Qed.

(** A loop whose body appends [n] good pixels appends [n] good pixels per
    turn. *)
Lemma for_each_pixels {A : Type} (body : A -> list R -> M (list R)) (n : nat) :
  (forall a cs s, exists cs' s',
      body a (interleave cs) s = Ok (interleave (cs ++ cs'), s') /\
      length cs' = n /\ Forall pixel_ok cs') ->
  forall l cs s, exists cs' s',
      for_each l body (interleave cs) s = Ok (interleave (cs ++ cs'), s') /\
      length cs' = (length l * n)%nat /\ Forall pixel_ok cs'.
Proof.
  intros Hbody l.
  induction l as [| a l IH]; intros cs s.
  - exists [], s. rewrite app_nil_r. repeat split. constructor.
  - destruct (Hbody a cs s) as (cs1 & s1 & Hrun1 & Hlen1 & Hok1).
    destruct (IH (cs ++ cs1) s1) as (cs2 & s2 & Hrun2 & Hlen2 & Hok2).
    exists (cs1 ++ cs2), s2.
    cbn [for_each]. unfold mbind at 1. rewrite Hrun1, Hrun2.
    rewrite app_assoc. split; [reflexivity |].
    split.
    + rewrite length_app, Hlen1, Hlen2. cbn [length]. lia.
    + apply Forall_app. now split.
Qed.

Lemma range_length (n : Z) : length (range n) = Z.to_nat n.
Proof. unfold range. now rewrite length_map, length_seq. Qed.

(** The two nested loops, for any size with a nonzero [max_radius]. *)
Lemma synthesize_pixels (width height : Z) (s : RandomState) :
  IZR (Z.min (width / 2) (height / 2)) * 0.98 <> 0 ->
  exists cs s',
    synthesize width height s = Ok (interleave cs, s') /\
    length cs = (Z.to_nat height * Z.to_nat width)%nat /\
    Forall pixel_ok cs.
Proof.
  intros Hradius. unfold synthesize.
  rewrite <- (range_length height), <- (range_length width).
  change (@nil R) with (interleave []).
  refine (for_each_pixels _ (length (range width)) _ (range height) [] s).
  intros y cs0 s0.
  destruct (for_each_pixels
              (fun x pixels =>
                 final_color <~
                   texture_pixel width (width / 2) (height / 2)
                     (IZR (Z.min (width / 2) (height / 2)) * 0.98) x y ;;
                 ret (extend pixels final_color)) 1) with (l := range width)
    (cs := cs0) (s := s0) as (cs' & s' & Hrun & Hlen & Hok).
  - intros x cs1 s1.
    destruct (texture_pixel_ok width (width / 2) (height / 2) _ x y s1 Hradius)
      as (c & s2 & Hpix & Hc).
    exists [c], s2. unfold mbind. rewrite Hpix. unfold ret.
    rewrite interleave_snoc. repeat split. now constructor.
  - exists cs', s'. rewrite Hrun. split; [reflexivity |].
    split; [lia | assumption].
Qed.

Lemma interleave_length (cs : list Color) :
  length (interleave cs) = (4 * length cs)%nat.
Proof.
  induction cs as [| c cs IH]; [reflexivity |].
  change (interleave (c :: cs))
    with (c0 c :: c1 c :: c2 c :: c3 c :: interleave cs).
  cbn [length]. lia.
Qed.

(** Pixel [i] occupies places [4i] to [4i+3] of the buffer. *)
Lemma nth_interleave (cs : list Color) :
  forall (i : nat) (c : Color),
    nth_error cs i = Some c ->
    nth (4 * i) (interleave cs) 0 = c0 c /\
    nth (4 * i + 1) (interleave cs) 0 = c1 c /\
    nth (4 * i + 2) (interleave cs) 0 = c2 c /\
    nth (4 * i + 3) (interleave cs) 0 = c3 c.
Proof.
  induction cs as [| c' cs IH]; intros i c Hi.
  - destruct i; discriminate.
  - change (interleave (c' :: cs))
      with (c0 c' :: c1 c' :: c2 c' :: c3 c' :: interleave cs).
    destruct i as [| i].
    + injection Hi as ->. repeat split.
    + cbn [nth_error] in Hi. specialize (IH i c Hi).
      replace (4 * S i)%nat with (S (S (S (S (4 * i))))) by lia.
      replace (S (S (S (S (4 * i)))) + 1)%nat
        with (S (S (S (S (4 * i + 1))))) by lia.
      replace (S (S (S (S (4 * i)))) + 2)%nat
        with (S (S (S (S (4 * i + 2))))) by lia.
      replace (S (S (S (S (4 * i)))) + 3)%nat
        with (S (S (S (S (4 * i + 3))))) by lia.
      cbn [nth]. exact IH.
Qed.

Lemma default_max_radius : IZR (Z.min (1024 / 2) (1024 / 2)) * 0.98 <> 0.
Proof.
  replace (Z.min (1024 / 2) (1024 / 2)) with 512%Z by reflexivity. lra.
Qed.

(** C7. Whatever the random generator returns, the texture is produced, it
    holds 1024 * 1024 pixels of four values each, and every pixel has its
    red, green and blue values in [0,1] and its alpha equal to 1.  The
    corner pixel [(0, 0)], at a normalised distance above 1, is one of
    them. *)
Theorem texture_pixels_in_range (s : RandomState) :
  exists pixels s',
    create_detailed_terrain_texture s = Ok (pixels, s') /\
    Z.of_nat (length pixels) = (4 * 1024 * 1024)%Z /\
    (forall i : nat, (Z.of_nat i < 1024 * 1024)%Z ->
       0 <= nth (4 * i) pixels 0 <= 1 /\
       0 <= nth (4 * i + 1) pixels 0 <= 1 /\
       0 <= nth (4 * i + 2) pixels 0 <= 1 /\
       nth (4 * i + 3) pixels 0 = 1) /\
    (exists dist u,
       math_sqrt (IZR ((0 - 1024 / 2) ^ 2 + (0 - 1024 / 2) ^ 2)) = Ok dist /\
       py_div dist (IZR (Z.min (1024 / 2) (1024 / 2)) * 0.98) = Ok u /\
       1 < u).
Proof.
  destruct (synthesize_pixels 1024 1024 s default_max_radius)
    as (cs & s' & Hrun & Hlen & Hok).
  assert (Hcount : Z.of_nat (length cs) = (1024 * 1024)%Z).
  { rewrite Hlen, Nat2Z.inj_mul, !Z2Nat.id by lia. reflexivity. }
  exists (interleave cs), s'.
  split; [exact Hrun |].
  split; [rewrite interleave_length, Nat2Z.inj_mul, Hcount; reflexivity |].
  split.
  - intros i Hi.
    assert (Hin : (i < length cs)%nat) by (apply Nat2Z.inj_lt; lia).
    destruct (nth_error cs i) as [c |] eqn:Hnth;
      [| apply nth_error_None in Hnth; lia].
    destruct (nth_interleave cs i c Hnth) as (-> & -> & -> & ->).
    rewrite Forall_forall in Hok.
    apply (Hok c (nth_error_In cs i Hnth)).
  - exists (sqrt 524288), (sqrt 524288 / (512 * 0.98)).
    replace ((0 - 1024 / 2) ^ 2 + (0 - 1024 / 2) ^ 2)%Z with 524288%Z
      by reflexivity.
    replace (Z.min (1024 / 2) (1024 / 2)) with 512%Z by reflexivity.
    split.
    + unfold math_sqrt. destruct (Rlt_dec 524288 0); [lra | reflexivity].
    + split.
      * unfold py_div.
        destruct (Req_dec_T (512 * 0.98) 0); [lra | reflexivity].
      * assert (Hroot : 512 < sqrt 524288).
        { rewrite <- (sqrt_square 512) at 1 by lra.
          apply sqrt_lt_1_alt. lra. }
        lra.
Qed.

(** *** Determinism in the random draws *)

Lemma same_draws_refl (s : RandomState) : same_draws s s.
Proof. intros k. reflexivity. Qed.

Lemma stable_ret {A : Type} (a : A) : stable (ret a).
Proof.
  intros s1 s2 Hsame. cbn.
  split; [reflexivity |]. split; [| assumption].
  exists 0%nat. lia.
Qed.

Lemma stable_lift {A : Type} (r : result A) : stable (lift r).
Proof.
  intros s1 s2 Hsame. destruct r as [a | e]; cbn; [| reflexivity].
  split; [reflexivity |]. split; [| assumption].
  exists 0%nat. lia.
Qed.

Lemma stable_random_random : stable random_random.
Proof.
  intros s1 s2 Hsame. cbn.
  split.
  - specialize (Hsame 0%nat). now rewrite !Nat.add_0_r in Hsame.
  - split; [exists 1%nat; cbn; lia |].
    intros k. cbn. specialize (Hsame (S k)).
    now rewrite !Nat.add_succ_r in Hsame.
Qed.

Lemma stable_mbind {A B : Type} (m : M A) (k : A -> M B) :
  stable m -> (forall a, stable (k a)) -> stable (mbind m k).
Proof.
  intros Hm Hk s1 s2 Hsame. unfold mbind.
  specialize (Hm s1 s2 Hsame). unfold same_outcome in Hm.
  destruct (m s1) as [[a1 s1'] | e1]; destruct (m s2) as [[a2 s2'] | e2];
    try contradiction; [| exact Hm].
  destruct Hm as (<- & (n & Hn1 & Hn2) & Hsame').
  specialize (Hk a1 s1' s2' Hsame'). unfold same_outcome in *.
  destruct (k a1 s1') as [[b1 t1] | e1];
    destruct (k a1 s2') as [[b2 t2] | e2]; try contradiction; [| exact Hk].
  destruct Hk as (-> & (n' & Hn1' & Hn2') & Hsame'').
  split; [reflexivity |]. split; [| assumption].
  exists (n + n')%nat. lia.
Qed.

Lemma stable_grass_detail (width : Z) (dist : R) (color : Color) :
  stable (grass_detail width dist color).
Proof.
  unfold grass_detail.
  destruct (Rlt_dec dist (IZR width * 0.4)); [| apply stable_ret].
  apply stable_mbind; [apply stable_random_random | intros v0].
  apply stable_mbind; [apply stable_random_random | intros v1].
  destruct (Rlt_dec v1 0.002); [| apply stable_ret].
  apply stable_mbind; [apply stable_random_random | intros v2].
  apply stable_ret.
Qed.

Lemma stable_sand_detail (width : Z) (dist : R) (color : Color) :
  stable (sand_detail width dist color).
Proof.
  unfold sand_detail.
  destruct (Rgt_dec dist (IZR width * 0.3)); [| apply stable_ret].
  apply stable_mbind; [apply stable_random_random | intros v0].
  destruct (Rlt_dec v0 0.001); [| apply stable_ret].
  apply stable_mbind; [apply stable_random_random | intros v1].
  apply stable_ret.
Qed.

Lemma stable_texture_pixel (width center_x center_y : Z) (max_radius : R)
    (x y : Z) :
  stable (texture_pixel width center_x center_y max_radius x y).
Proof.
  unfold texture_pixel, detail_and_dither, noise_overlay.
  apply stable_mbind; [apply stable_lift | intros dist].
  apply stable_mbind; [apply stable_lift | intros u].
  apply stable_mbind; [apply stable_grass_detail | intros cg].
  apply stable_mbind; [apply stable_sand_detail | intros cs].
  apply stable_mbind; [apply stable_random_random | intros v0].
  apply stable_ret.
Qed.

Lemma stable_for_each {A : Type} (body : A -> list R -> M (list R)) :
  (forall a pixels, stable (body a pixels)) ->
  forall l pixels, stable (for_each l body pixels).
Proof.
  intros Hbody l.
  induction l as [| a l IH]; intros pixels; cbn [for_each].
  - apply stable_ret.
  - apply stable_mbind; [apply Hbody | intros pixels'; apply IH].
Qed.

Lemma stable_synthesize (width height : Z) : stable (synthesize width height).
Proof.
  unfold synthesize.
  apply stable_for_each. intros y pixels.
  apply stable_for_each. intros x pixels'.
  apply stable_mbind; [apply stable_texture_pixel | intros c].
  apply stable_ret.
Qed.

(** C9. For any image size, two runs of the synthesis whose generators
    return the same values from where they stand end alike: the same buffer
    after the same number of draws (or the same exception); and the
    1024 by 1024 texture of the source is then the same buffer in both
    runs. *)
Theorem texture_deterministic (width height : Z) (s1 s2 : RandomState) :
  same_draws s1 s2 ->
  same_outcome s1 s2 (synthesize width height s1) (synthesize width height s2) /\
  exists pixels s1' s2',
    create_detailed_terrain_texture s1 = Ok (pixels, s1') /\
    create_detailed_terrain_texture s2 = Ok (pixels, s2').
Proof.
  intros Hsame.
  split; [now apply stable_synthesize |].
  pose proof (stable_synthesize 1024 1024 s1 s2 Hsame) as Hrun.
  unfold create_detailed_terrain_texture.
  destruct (synthesize_pixels 1024 1024 s1 default_max_radius)
    as (cs1 & s1' & Hrun1 & _).
  destruct (synthesize_pixels 1024 1024 s2 default_max_radius)
    as (cs2 & s2' & Hrun2 & _).
  rewrite Hrun1, Hrun2 in *. cbn in Hrun.
  destruct Hrun as (Heq & _).
  exists (interleave cs1), s1', s2'. now rewrite Heq.
Qed.

Lemma texture_deterministic_witness :
  same_draws (stream_of [] 0.5) {| stream := fun _ => 0.5; pos := 7 |} /\
  exists pixels s1' s2',
    create_detailed_terrain_texture (stream_of [] 0.5) = Ok (pixels, s1') /\
    create_detailed_terrain_texture {| stream := fun _ => 0.5; pos := 7 |} =
      Ok (pixels, s2').
Proof.
  assert (Hsame : same_draws (stream_of [] 0.5)
                    {| stream := fun _ => 0.5; pos := 7 |}).
  { intros k. cbn. now destruct k. }
  split; [exact Hsame |].
  exact (proj2 (texture_deterministic 1024 1024 _ _ Hsame)).
Defined.

(** *** Where the two detail passes act *)

Section DetailPasses.

Variables (width : Z) (dist : R) (color : Color) (s : RandomState).

(** Inside the grass region two values are drawn; the second decides. *)
Lemma grass_detail_fires :
  dist < IZR width * 0.4 -> stream s (S (pos s)) < 0.002 ->
  grass_detail width dist color s =
  Ok (grass_color color (stream s (S (S (pos s))) * 0.4 + 0.2),
      {| stream := stream s; pos := S (S (S (pos s))) |}).
Proof.
  intros Hin Hfire. unfold grass_detail.
  destruct (Rlt_dec dist (IZR width * 0.4)); [| contradiction].
  unfold mbind, random_random, ret. cbn [stream pos].
  destruct (Rlt_dec (stream s (S (pos s))) 0.002); [reflexivity | contradiction].
Qed.

Lemma grass_detail_quiet :
  dist < IZR width * 0.4 -> ~ stream s (S (pos s)) < 0.002 ->
  grass_detail width dist color s =
  Ok (color, {| stream := stream s; pos := S (S (pos s)) |}).
Proof.
  intros Hin Hquiet. unfold grass_detail.
  destruct (Rlt_dec dist (IZR width * 0.4)); [| contradiction].
  unfold mbind, random_random, ret. cbn [stream pos].
  destruct (Rlt_dec (stream s (S (pos s))) 0.002); [contradiction | reflexivity].
Qed.

Lemma grass_detail_outside :
  ~ dist < IZR width * 0.4 -> grass_detail width dist color s = Ok (color, s).
Proof.
  intros Hout. unfold grass_detail.
  destruct (Rlt_dec dist (IZR width * 0.4)); [contradiction | reflexivity].
Qed.

(** Inside the sand region the first value drawn decides. *)
Lemma sand_detail_fires :
  dist > IZR width * 0.3 -> stream s (pos s) < 0.001 ->
  sand_detail width dist color s =
  Ok (sand_color color (stream s (S (pos s)) * 0.3 + 0.3),
      {| stream := stream s; pos := S (S (pos s)) |}).
Proof.
  intros Hin Hfire. unfold sand_detail.
  destruct (Rgt_dec dist (IZR width * 0.3)); [| contradiction].
  unfold mbind, random_random, ret. cbn [stream pos].
  destruct (Rlt_dec (stream s (pos s)) 0.001); [reflexivity | contradiction].
Qed.

Lemma sand_detail_quiet :
  dist > IZR width * 0.3 -> ~ stream s (pos s) < 0.001 ->
  sand_detail width dist color s =
  Ok (color, {| stream := stream s; pos := S (pos s) |}).
Proof.
  intros Hin Hquiet. unfold sand_detail.
  destruct (Rgt_dec dist (IZR width * 0.3)); [| contradiction].
  unfold mbind, random_random, ret. cbn [stream pos].
  destruct (Rlt_dec (stream s (pos s)) 0.001); [contradiction | reflexivity].
Qed.

Lemma sand_detail_outside :
  ~ dist > IZR width * 0.3 -> sand_detail width dist color s = Ok (color, s).
Proof.
  intros Hout. unfold sand_detail.
  destruct (Rgt_dec dist (IZR width * 0.3)); [contradiction | reflexivity].
Qed.

Lemma noise_overlay_run :
  noise_overlay color s =
  Ok (final_color color ((stream s (pos s) - 0.5) * 0.08),
      {| stream := stream s; pos := S (pos s) |}).
Proof. reflexivity. Qed.

End DetailPasses.

(** With a positive width every distance is in one of the two regions. *)
Lemma regions_cover_every_distance (width : Z) (dist : R) :
  (0 < width)%Z -> dist < IZR width * 0.4 \/ dist > IZR width * 0.3.
Proof.
  intros Hw. apply IZR_lt in Hw.
  destruct (Rlt_dec dist (IZR width * 0.4)); [now left | right; lra].
Qed.

Ltac run_details :=
  unfold detail_and_dither, mbind;
  repeat (first
    [ rewrite grass_detail_fires by (cbn; lra)
    | rewrite grass_detail_quiet by (cbn; lra)
    | rewrite sand_detail_fires by (cbn; lra)
    | rewrite sand_detail_quiet by (cbn; lra) ]; cbv beta iota);
  rewrite noise_overlay_run; cbn [stream pos stream_of nth];
  eexists; apply f_equal; apply f_equal2;
  [repeat (f_equal; try lra) | reflexivity].

(** C8. The grass pass leaves a pixel as it is (and draws nothing) unless
    its distance from the centre is strictly below [0.4 * width]; the sand
    pass likewise unless the distance is strictly above [0.3 * width]; a
    pixel outside both regions gets the base colour with the dither only
    (for a positive width the two regions leave no such distance); and for
    a distance strictly between [0.3 * width] and [0.4 * width] there are
    random draws for which both passes act, the grass pass alone, the sand
    pass alone, and neither. *)
Theorem detail_regions (width : Z) (dist : R) (color : Color) (s : RandomState) :
  (~ dist < IZR width * 0.4 ->
     grass_detail width dist color s = Ok (color, s)) /\
  (~ dist > IZR width * 0.3 ->
     sand_detail width dist color s = Ok (color, s)) /\
  (~ dist < IZR width * 0.4 -> ~ dist > IZR width * 0.3 ->
     detail_and_dither width dist color s = noise_overlay color s) /\
  ((0 < width)%Z -> dist < IZR width * 0.4 \/ dist > IZR width * 0.3) /\
  (IZR width * 0.3 < dist < IZR width * 0.4 ->
     (exists s',
        detail_and_dither width dist color (stream_of [0; 0; 0; 0; 0] 0.5) =
        Ok (final_color (sand_color (grass_color color 0.2) 0.3) 0, s')) /\
     (exists s',
        detail_and_dither width dist color (stream_of [0; 0; 0] 0.5) =
        Ok (final_color (grass_color color 0.2) 0, s')) /\
     (exists s',
        detail_and_dither width dist color (stream_of [0; 0.5; 0; 0] 0.5) =
        Ok (final_color (sand_color color 0.3) 0, s')) /\
     (exists s',
        detail_and_dither width dist color (stream_of [] 0.5) =
        Ok (final_color color 0, s'))).
Proof.
  split; [apply grass_detail_outside |].
  split; [apply sand_detail_outside |].
  split.
  { intros Hgrass Hsand. unfold detail_and_dither, mbind.
    rewrite grass_detail_outside by assumption.
    rewrite sand_detail_outside by assumption. reflexivity. }
  split; [apply regions_cover_every_distance |].
  intros [Hlow Hhigh].
  repeat split; run_details.
Qed.

Lemma detail_regions_witness :
  IZR 1024 * 0.3 < 350 < IZR 1024 * 0.4 /\
  (exists s',
     detail_and_dither 1024 350 medium_green (stream_of [0; 0; 0] 0.5) =
     Ok (final_color (grass_color medium_green 0.2) 0, s')) /\
  ~ 450 < IZR 1024 * 0.4 /\
  grass_detail 1024 450 medium_green (stream_of [] 0.5) =
    Ok (medium_green, stream_of [] 0.5).
Proof.
  assert (Hband : IZR 1024 * 0.3 < 350 < IZR 1024 * 0.4) by lra.
  assert (Hout : ~ 450 < IZR 1024 * 0.4) by lra.
  split; [exact Hband |].
  split.
  - apply (proj2 (proj2 (proj2 (proj2
      (detail_regions 1024 350 medium_green (stream_of [] 0.5))))) Hband).
  - split; [exact Hout |].
    apply (proj1 (detail_regions 1024 450 medium_green (stream_of [] 0.5)) Hout).
Defined.

(** * Further properties of the generator *)

(** ** More on the height field *)

Lemma noise_within (x z : R) : -0.54 <= get_surface_noise x z <= 0.54.
Proof.
  assert (Hbound : Rabs (get_surface_noise x z) <= 0.54).
  { unfold get_surface_noise. rewrite <- amplitude_sum_octaves.
    eapply Rle_trans; [apply noise_loop_bound |].
    - unfold octaves. repeat constructor; cbn; lra.
    - rewrite Rabs_R0. lra. }
  unfold Rabs in Hbound.
  destruct (Rcase_abs (get_surface_noise x z)); lra.
Qed.

(** The fraction of the hill radius, as an angle, stays in the first
    quadrant. *)
Lemma dome_angle_range (hr d : R) :
  0 < hr -> 0 <= d -> d < hr ->
  0 <= d / hr * (PI / 2) < PI / 2.
Proof.
  intros Hhr Hd Hlt.
  pose proof PI_RGT_0 as Hpi.
  assert (Hinv : 0 < / hr) by now apply Rinv_0_lt_compat.
  assert (Hone : hr * / hr = 1) by (apply Rinv_r; lra).
  unfold Rdiv.
  assert (Hfrac : 0 <= d * / hr < 1) by nra.
  nra.
Qed.

Lemma cos_sqr_decreasing (a b : R) :
  0 <= a -> a <= b -> b <= PI / 2 -> cos b ^ 2 <= cos a ^ 2.
Proof.
  intros Ha Hab Hb.
  pose proof PI_RGT_0 as Hpi.
  assert (Hle : cos b <= cos a) by (apply cos_decr_1; lra).
  assert (Hpos : 0 <= cos b) by (apply cos_ge_0; lra).
  nra.
Qed.

Section Profile.

Variable p : TerrainParameters.
Hypothesis Hheight : 0 <= hill_height p.

Lemma radial_profile_upper (d : R) :
  radial_profile p d <= base_ground_level p + hill_height p.
Proof.
  unfold radial_profile.
  destruct (Rge_dec d (island_radius p)).
  - pose proof (pow2_ge_0 ((d - island_radius p) * 0.1)). lra.
  - destruct (Rlt_dec d (hill_radius p)); [| lra].
    pose proof (COS_bound (d / hill_radius p * (PI / 2))) as [Hlo Hhi].
    assert (Hsq : cos (d / hill_radius p * (PI / 2)) ^ 2 <= 1) by nra.
    nra.
Qed.

Lemma radial_profile_island_lower (d : R) :
  d < island_radius p -> base_ground_level p <= radial_profile p d.
Proof.
  intros Hin. unfold radial_profile.
  destruct (Rge_dec d (island_radius p)); [lra |].
  destruct (Rlt_dec d (hill_radius p)); [| lra].
  pose proof (pow2_ge_0 (cos (d / hill_radius p * (PI / 2)))). nra.
Qed.

Lemma radial_profile_void_upper (d : R) :
  island_radius p <= d -> radial_profile p d <= base_ground_level p.
Proof.
  intros Hout. rewrite radial_profile_void by assumption.
  pose proof (pow2_ge_0 ((d - island_radius p) * 0.1)). lra.
Qed.

(** Farther from the centre is never higher. *)
Lemma radial_profile_decreasing (d1 d2 : R) :
  0 <= d1 -> d1 <= d2 -> radial_profile p d2 <= radial_profile p d1.
Proof.
  intros Hd1 Hle.
  destruct (Rle_lt_dec (island_radius p) d2) as [Hout2 | Hin2].
  - destruct (Rle_lt_dec (island_radius p) d1) as [Hout1 | Hin1].
    + rewrite !radial_profile_void by assumption. nra.
    + pose proof (radial_profile_void_upper d2 Hout2).
      pose proof (radial_profile_island_lower d1 Hin1). lra.
  - assert (Hin1 : d1 < island_radius p) by lra.
    destruct (Rle_lt_dec (hill_radius p) d2) as [Hshelf2 | Hdome2].
    + rewrite (radial_profile_shelf p d2) by assumption.
      now apply radial_profile_island_lower.
    + unfold radial_profile.
      destruct (Rge_dec d2 (island_radius p)); [lra |].
      destruct (Rge_dec d1 (island_radius p)); [lra |].
      destruct (Rlt_dec d2 (hill_radius p)); [| lra].
      destruct (Rlt_dec d1 (hill_radius p)); [| lra].
      assert (Hdome1 : d1 < hill_radius p) by lra.
      assert (Hhill : 0 < hill_radius p) by lra.
      assert (Hd2 : 0 <= d2) by lra.
      pose proof (dome_angle_range (hill_radius p) d1 Hhill Hd1 Hdome1) as Ha1.
      pose proof (dome_angle_range (hill_radius p) d2 Hhill Hd2 Hdome2) as Ha2.
      assert (Hangle : d1 / hill_radius p * (PI / 2) <=
                       d2 / hill_radius p * (PI / 2)).
      { pose proof PI_RGT_0.
        assert (0 < / hill_radius p) by now apply Rinv_0_lt_compat.
        assert (d1 * / hill_radius p <= d2 * / hill_radius p) by nra.
        unfold Rdiv. nra. }
      assert (Hsq : cos (d2 / hill_radius p * (PI / 2)) ^ 2 <=
                    cos (d1 / hill_radius p * (PI / 2)) ^ 2)
        by (apply cos_sqr_decreasing; lra).
      nra.
Qed.

End Profile.

(** X1. With a nonnegative hill height the terrain is nowhere higher than
    the base ground level plus the hill height plus 0.54; inside the island
    radius it is nowhere lower than the base ground level minus 0.54; and
    from the island radius on it is nowhere higher than the base ground
    level plus 0.54. *)
Theorem height_bounds (p : TerrainParameters) (x z : R) :
  0 <= hill_height p ->
  exists h,
    calculate_terrain_height p x z = Ok h /\
    h <= base_ground_level p + hill_height p + 0.54 /\
    (sqrt (x * x + z * z) < island_radius p ->
       base_ground_level p - 0.54 <= h) /\
    (island_radius p <= sqrt (x * x + z * z) ->
       h <= base_ground_level p + 0.54).
Proof.
  intros Hheight.
  eexists. split; [apply calculate_terrain_height_profile |].
  pose proof (noise_within x z) as Hnoise.
  pose proof (radial_profile_upper p Hheight (sqrt (x * x + z * z))).
  split; [lra |]. split.
  - intros Hin.
    pose proof (radial_profile_island_lower p Hheight _ Hin). lra.
  - intros Hout.
    pose proof (radial_profile_void_upper p _ Hout). lra.
Qed.

Lemma height_bounds_witness :
  0 <= hill_height default_terrain_params /\
  exists h,
    calculate_terrain_height default_terrain_params 30 40 = Ok h /\
    h <= 10.54.
Proof.
  assert (Hheight : 0 <= hill_height default_terrain_params) by (cbn; lra).
  split; [exact Hheight |].
  destruct (height_bounds default_terrain_params 30 40 Hheight)
    as (h & Hrun & Hup & _).
  exists h. split; [exact Hrun |]. cbn in Hup. lra.
Defined.

(** X2. With a nonnegative hill height, the terrain without its noise
    never rises with the distance from the centre: of two positions, the
    one farther out is not the higher one. *)
Theorem height_falls_with_distance (p : TerrainParameters)
    (x1 z1 x2 z2 : R) :
  0 <= hill_height p ->
  sqrt (x1 * x1 + z1 * z1) <= sqrt (x2 * x2 + z2 * z2) ->
  exists h1 h2,
    calculate_terrain_height p x1 z1 = Ok h1 /\
    calculate_terrain_height p x2 z2 = Ok h2 /\
    h2 - get_surface_noise x2 z2 <= h1 - get_surface_noise x1 z1.
Proof.
  intros Hheight Hle.
  do 2 eexists.
  split; [apply calculate_terrain_height_profile |].
  split; [apply calculate_terrain_height_profile |].
  pose proof (radial_profile_decreasing p Hheight
                (sqrt (x1 * x1 + z1 * z1)) (sqrt (x2 * x2 + z2 * z2))
                (sqrt_pos _) Hle).
  lra.
Qed.

Lemma height_falls_with_distance_witness :
  sqrt (30 * 30 + 0 * 0) <= sqrt (0 * 0 + 90 * 90) /\
  exists h1 h2,
    calculate_terrain_height default_terrain_params 30 0 = Ok h1 /\
    calculate_terrain_height default_terrain_params 0 90 = Ok h2 /\
    h2 - get_surface_noise 0 90 <= h1 - get_surface_noise 30 0.
Proof.
  assert (Hle : sqrt (30 * 30 + 0 * 0) <= sqrt (0 * 0 + 90 * 90))
    by (apply sqrt_le_1_alt; lra).
  split; [exact Hle |].
  apply (height_falls_with_distance default_terrain_params 30 0 0 90);
    [cbn; lra | exact Hle].
Defined.

(** Just inside the hill radius the dome is within [eps] of the shelf. *)
Lemma dome_near_foot (p : TerrainParameters) (eps : R) :
  0 < hill_radius p -> 0 < eps ->
  exists delta, 0 < delta /\
    forall d, 0 <= d -> d < hill_radius p -> hill_radius p - d < delta ->
      Rabs (hill_height p * cos (d / hill_radius p * (PI / 2)) ^ 2) < eps.
Proof.
  intros Hhill Heps.
  pose proof PI_RGT_0 as Hpi.
  set (hr := hill_radius p) in *.
  set (a := Rabs (hill_height p) + 1).
  assert (Ha : 1 <= a) by (unfold a; pose proof (Rabs_pos (hill_height p)); lra).
  assert (Hia : 0 < / a) by (apply Rinv_0_lt_compat; lra).
  assert (Haia : a * / a = 1) by (apply Rinv_r; lra).
  set (m := Rmin 1 (eps * / a)).
  assert (Hm0 : 0 < m) by (apply Rmin_glb_lt; nra).
  assert (Hm1 : m <= 1) by apply Rmin_l.
  assert (Hm2 : m <= eps * / a) by apply Rmin_r.
  assert (Hipi : 0 < / PI) by now apply Rinv_0_lt_compat.
  assert (Hpipi : PI * / PI = 1) by (apply Rinv_r; lra).
  assert (Hihr : 0 < / hr) by now apply Rinv_0_lt_compat.
  assert (Hhrhr : hr * / hr = 1) by (apply Rinv_r; lra).
  exists (2 * hr * / PI * m).
  split; [repeat apply Rmult_lt_0_compat; lra |].
  intros d Hd Hlt Hnear.
  pose proof (dome_angle_range hr d Hhill Hd Hlt) as [Hth0 Hth1].
  set (theta := d / hr * (PI / 2)) in *.
  set (t := PI / 2 - theta).
  assert (Hcos : cos theta = sin t).
  { unfold t. rewrite <- cos_shift. f_equal. lra. }
  assert (Ht0 : 0 < t) by (unfold t; lra).
  assert (Htm : t < m).
  { unfold t, theta, Rdiv.
    assert (Hstep : (hr - d) * / hr < 2 * / PI * m).
    { apply Rmult_lt_compat_r with (r := / hr) in Hnear; [| assumption].
      replace (2 * hr * / PI * m * / hr) with (2 * / PI * m * (hr * / hr))
        in Hnear by ring.
      rewrite Hhrhr in Hnear. lra. }
    apply Rmult_lt_compat_r with (r := PI * / 2) in Hstep; [| lra].
    replace (2 * / PI * m * (PI * / 2)) with (m * (PI * / PI)) in Hstep
      by (field; lra).
    rewrite Hpipi in Hstep.
    replace (PI * / 2 - d * / hr * (PI * / 2))
      with ((hr - d) * / hr * (PI * / 2)); [lra |].
    replace ((hr - d) * / hr) with (hr * / hr - d * / hr) by ring.
    rewrite Hhrhr. ring. }
  assert (Ht1 : t <= PI) by (unfold t; lra).
  assert (Hs0 : 0 <= sin t) by (apply sin_ge_0; lra).
  assert (Hs1 : sin t < t) by now apply sin_lt_x.
  rewrite Hcos, Rabs_mult.
  rewrite (Rabs_pos_eq (sin t ^ 2)) by apply pow2_ge_0.
  pose proof (Rabs_pos (hill_height p)) as Hh0.
  assert (Hsq : sin t ^ 2 <= m) by nra.
  assert (Hprod : Rabs (hill_height p) * sin t ^ 2 <= (a - 1) * (eps * / a)).
  { unfold a at 1. replace (Rabs (hill_height p) + 1 - 1)
      with (Rabs (hill_height p)) by ring.
    apply Rmult_le_compat_l; [assumption | lra]. }
  replace ((a - 1) * (eps * / a)) with (eps * (a * / a) - eps * / a) in Hprod
    by ring.
  rewrite Haia in Hprod. nra.
Qed.

(** X3. For a positive hill radius below the island radius the dome meets
    the flat shelf without a step: positions whose distance from the centre
    is close enough to the hill radius, on either side, have a height
    without noise as close to the base ground level as wanted. *)
Theorem hill_foot_continuous (p : TerrainParameters) (eps : R) :
  0 < hill_radius p ->
  hill_radius p < island_radius p ->
  0 < eps ->
  exists delta, 0 < delta /\
    forall x z, Rabs (sqrt (x * x + z * z) - hill_radius p) < delta ->
      exists h, calculate_terrain_height p x z = Ok h /\
        Rabs (h - get_surface_noise x z - base_ground_level p) < eps.
Proof.
  intros Hhill Hvalid Heps.
  destruct (dome_near_foot p eps Hhill Heps) as (delta0 & Hdelta0 & Hdome).
  exists (Rmin (island_radius p - hill_radius p) delta0).
  split; [apply Rmin_glb_lt; lra |].
  intros x z Hnear.
  eexists. split; [apply calculate_terrain_height_profile |].
  pose proof (sqrt_pos (x * x + z * z)) as Hd.
  set (d := sqrt (x * x + z * z)) in *.
  pose proof (Rmin_l (island_radius p - hill_radius p) delta0) as Hm1.
  pose proof (Rmin_r (island_radius p - hill_radius p) delta0) as Hm2.
  apply Rabs_def2 in Hnear. destruct Hnear as [Hup Hdown].
  destruct (Rle_lt_dec (hill_radius p) d) as [Hshelf | Hin].
  - rewrite radial_profile_shelf by lra.
    apply Rabs_def1; lra.
  - specialize (Hdome d Hd Hin ltac:(lra)).
    unfold radial_profile.
    destruct (Rge_dec d (island_radius p)); [lra |].
    destruct (Rlt_dec d (hill_radius p)); [| lra].
    match goal with
    | |- Rabs ?e < _ =>
        replace e with (hill_height p * cos (d / hill_radius p * (PI / 2)) ^ 2)
          by ring
    end.
    exact Hdome.
Qed.

Lemma hill_foot_continuous_witness :
  0 < hill_radius default_terrain_params /\
  hill_radius default_terrain_params < island_radius default_terrain_params /\
  exists delta, 0 < delta /\
    forall x z, Rabs (sqrt (x * x + z * z) - 100) < delta ->
      exists h, calculate_terrain_height default_terrain_params x z = Ok h /\
        Rabs (h - get_surface_noise x z - -5) < 1.
Proof.
  assert (Hhill : 0 < hill_radius default_terrain_params) by (cbn; lra).
  assert (Hvalid : hill_radius default_terrain_params <
                   island_radius default_terrain_params) by (cbn; lra).
  split; [exact Hhill |]. split; [exact Hvalid |].
  apply (hill_foot_continuous default_terrain_params 1 Hhill Hvalid); lra.
Defined.

(** ** More on the colours *)

Lemma lerp_between (a b t : R) :
  0 <= t <= 1 -> between (a + (b - a) * t) a b.
Proof.
  intros [Ht0 Ht1]. unfold between, Rmin, Rmax.
  destruct (Rle_dec a b); nra.
Qed.

(** X4. For [t] between 0 and 1, [lerp_color] gives a colour whose red,
    green and blue each lie between those of its two arguments; at [t = 0]
    they are those of the first, at [t = 1] those of the second; and the
    alpha is 1 whatever the alphas of the arguments. *)
Theorem lerp_color_between (color1 color2 : Color) (t : R) :
  c3 (lerp_color color1 color2 t) = 1 /\
  (t = 0 ->
     lerp_color color1 color2 t = rgba (c0 color1) (c1 color1) (c2 color1) 1) /\
  (t = 1 ->
     lerp_color color1 color2 t = rgba (c0 color2) (c1 color2) (c2 color2) 1) /\
  (0 <= t <= 1 -> channels_between (lerp_color color1 color2 t) color1 color2).
Proof.
  split; [cbn; lra |].
  split; [intros ->; unfold lerp_color; f_equal; lra |].
  split; [intros ->; unfold lerp_color; f_equal; lra |].
  intros Ht. unfold channels_between, lerp_color. cbn [c0 c1 c2].
  repeat split; now apply lerp_between.
Qed.

Lemma lerp_color_between_witness :
  0 <= 0.5 <= 1 /\
  channels_between (lerp_color medium_green sandy_beach 0.5)
    medium_green sandy_beach.
Proof.
  assert (Ht : 0 <= 0.5 <= 1) by lra.
  split; [exact Ht |].
  exact (proj2 (proj2 (proj2
           (lerp_color_between medium_green sandy_beach 0.5))) Ht).
Defined.

Ltac gradient_cases u :=
  unfold gradient_color;
  destruct (Rle_dec u 0.0); [|
  destruct (Rle_dec u 0.4); [|
  destruct (Rle_dec u 0.7); [|
  destruct (Rle_dec u 0.85)]]].

Ltac between_constants :=
  unfold channels_between, between, Rmin, Rmax, lerp_color,
    grass_center, medium_green, sandy_beach, darker_sand, wet_sand;
  cbn [c0 c1 c2 c3];
  repeat match goal with
         | |- context [Rle_dec ?a ?b] => destruct (Rle_dec a b)
         end;
  try lra.

(** X5. Inside each of the four bands the base colour lies, channel by
    channel, between the colours of the two ends of the band; at or below 0
    it is the grass-centre colour; and its alpha is always 1. *)
Theorem gradient_color_within_band (u : R) :
  (u <= 0 -> gradient_color u = grass_center) /\
  (0 <= u <= 0.4 ->
     channels_between (gradient_color u) grass_center medium_green) /\
  (0.4 <= u <= 0.7 ->
     channels_between (gradient_color u) medium_green sandy_beach) /\
  (0.7 <= u <= 0.85 ->
     channels_between (gradient_color u) sandy_beach darker_sand) /\
  (0.85 <= u <= 1 ->
     channels_between (gradient_color u) darker_sand wet_sand) /\
  c3 (gradient_color u) = 1.
Proof.
  split; [intros Hu; gradient_cases u; first [reflexivity | lra] |].
  split; [intros Hu; gradient_cases u; between_constants |].
  split; [intros Hu; gradient_cases u; between_constants |].
  split; [intros Hu; gradient_cases u; between_constants |].
  split; [intros Hu; gradient_cases u; between_constants |].
  gradient_cases u; cbn; lra.
Qed.

Lemma gradient_color_within_band_witness :
  0.4 <= 0.55 <= 0.7 /\
  channels_between (gradient_color 0.55) medium_green sandy_beach.
Proof.
  assert (Hu : 0.4 <= 0.55 <= 0.7) by lra.
  split; [exact Hu |].
  exact (proj1 (proj2 (proj2 (gradient_color_within_band 0.55))) Hu).
Defined.

Ltac abs_cases :=
  unfold Rabs;
  repeat match goal with
         | |- context [Rcase_abs ?a] => destruct (Rcase_abs a)
         end;
  lra.

(** X6. The base colour has no jump, at the band seams or anywhere else:
    between any two normalised distances each channel changes by at most
    twice their difference. *)
Theorem gradient_color_lipschitz (u v : R) :
  Rabs (c0 (gradient_color u) - c0 (gradient_color v)) <= 2 * Rabs (u - v) /\
  Rabs (c1 (gradient_color u) - c1 (gradient_color v)) <= 2 * Rabs (u - v) /\
  Rabs (c2 (gradient_color u) - c2 (gradient_color v)) <= 2 * Rabs (u - v).
Proof.
  gradient_cases u; gradient_cases v;
    unfold lerp_color, grass_center, medium_green, sandy_beach,
      darker_sand, wet_sand; cbn [c0 c1 c2];
    repeat split; abs_cases.
Qed.

(** ** More on the texture *)

Lemma py_min_one_brightens (c b : R) :
  c <= 1 -> 0 <= b -> c <= py_min 1.0 (c + b) <= 1.
Proof.
  intros Hc Hb. unfold py_min.
  destruct (Rlt_dec (c + b) 1.0); lra.
Qed.

(** X7. With draws in [0,1), a detail pass never darkens a pixel and never
    takes a channel above 1: on a colour with channels at most 1, the grass
    pass and the sand pass each return a colour whose red, green and blue
    are at least what they were and at most 1. *)
Theorem detail_passes_only_brighten (width : Z) (dist : R) (color : Color)
    (s : RandomState) :
  unit_draws s ->
  c0 color <= 1 -> c1 color <= 1 -> c2 color <= 1 ->
  (exists color' s',
     grass_detail width dist color s = Ok (color', s') /\
     c0 color <= c0 color' <= 1 /\
     c1 color <= c1 color' <= 1 /\
     c2 color <= c2 color' <= 1) /\
  (exists color' s',
     sand_detail width dist color s = Ok (color', s') /\
     c0 color <= c0 color' <= 1 /\
     c1 color <= c1 color' <= 1 /\
     c2 color <= c2 color' <= 1).
Proof.
  intros Hdraws H0 H1 H2.
  split.
  - destruct (Rlt_dec dist (IZR width * 0.4)) as [Hin | Hout].
    + destruct (Rlt_dec (stream s (S (pos s))) 0.002) as [Hfire | Hquiet].
      * rewrite grass_detail_fires by assumption.
        do 2 eexists. split; [reflexivity |].
        pose proof (Hdraws (S (S (pos s)))) as Hb.
        unfold grass_color. cbn [c0 c1 c2].
        repeat split; apply py_min_one_brightens; nra.
      * rewrite grass_detail_quiet by assumption.
        do 2 eexists. split; [reflexivity | lra].
    + rewrite grass_detail_outside by assumption.
      do 2 eexists. split; [reflexivity | lra].
  - destruct (Rgt_dec dist (IZR width * 0.3)) as [Hin | Hout].
    + destruct (Rlt_dec (stream s (pos s)) 0.001) as [Hfire | Hquiet].
      * rewrite sand_detail_fires by assumption.
        do 2 eexists. split; [reflexivity |].
        pose proof (Hdraws (S (pos s))) as Hb.
        unfold sand_color. cbn [c0 c1 c2].
        repeat split; apply py_min_one_brightens; nra.
      * rewrite sand_detail_quiet by assumption.
        do 2 eexists. split; [reflexivity | lra].
    + rewrite sand_detail_outside by assumption.
      do 2 eexists. split; [reflexivity | lra].
Qed.

Lemma unit_draws_stream_of_half : unit_draws (stream_of [0; 0; 0] 0.5).
Proof.
  intros n. cbn. destruct n as [| [| [| n]]]; try lra.
  destruct n; lra.
Qed.

Lemma detail_passes_only_brighten_witness :
  unit_draws (stream_of [0; 0; 0] 0.5) /\
  exists color' s',
    grass_detail 1024 350 medium_green (stream_of [0; 0; 0] 0.5) =
      Ok (color', s') /\
    c0 medium_green <= c0 color' <= 1.
Proof.
  split; [exact unit_draws_stream_of_half |].
  destruct (detail_passes_only_brighten 1024 350 medium_green
              (stream_of [0; 0; 0] 0.5) unit_draws_stream_of_half)
    as [(color' & s' & Hrun & Hred & _) _]; try (cbn; lra).
  exists color', s'. split; assumption.
Defined.

(** X8. The first value the grass pass draws ([grass_noise]) is not used:
    replacing the next value of the generator by any other leaves the
    colour the pass returns, and the number of values it draws, as they
    were. *)
Theorem grass_noise_draw_unused (width : Z) (dist : R) (color : Color)
    (s : RandomState) (v : R) :
  exists color' s1 s2,
    grass_detail width dist color s = Ok (color', s1) /\
    grass_detail width dist color (with_next_draw s v) = Ok (color', s2) /\
    pos s1 = pos s2.
Proof.
  assert (Hkeep : forall k, stream (with_next_draw s v) (S k + pos s)
                            = stream s (S k + pos s)).
  { intros k. cbn [with_next_draw stream].
    destruct (Nat.eqb_spec (S k + pos s) (pos s)); [lia | reflexivity]. }
  pose proof (Hkeep 0%nat) as Hk1. pose proof (Hkeep 1%nat) as Hk2.
  cbn [Nat.add] in Hk1, Hk2.
  destruct (Rlt_dec dist (IZR width * 0.4)) as [Hin | Hout].
  - destruct (Rlt_dec (stream s (S (pos s))) 0.002) as [Hfire | Hquiet].
    + rewrite !grass_detail_fires;
        try assumption; [| cbn [with_next_draw pos]; rewrite Hk1; assumption].
      cbn [with_next_draw pos]. rewrite Hk2.
      do 3 eexists. repeat split.
    + rewrite !grass_detail_quiet;
        try assumption; [| cbn [with_next_draw pos]; rewrite Hk1; assumption].
      do 3 eexists. repeat split.
  - rewrite !grass_detail_outside by assumption.
    do 3 eexists. repeat split.
Qed.

(** *** How many values the texture draws *)

Lemma grass_detail_draws (width : Z) (dist : R) (color : Color) (s : RandomState) :
  exists color' s' k,
    grass_detail width dist color s = Ok (color', s') /\ drew k s s' /\
    (dist < IZR width * 0.4 -> (2 <= k <= 3)%nat) /\
    (~ dist < IZR width * 0.4 -> k = 0%nat).
Proof.
  destruct (Rlt_dec dist (IZR width * 0.4)) as [Hin | Hout].
  - destruct (Rlt_dec (stream s (S (pos s))) 0.002) as [Hfire | Hquiet].
    + rewrite grass_detail_fires by assumption.
      do 2 eexists. exists 3%nat. repeat split; try lia. contradiction.
    + rewrite grass_detail_quiet by assumption.
      do 2 eexists. exists 2%nat. repeat split; try lia. contradiction.
  - rewrite grass_detail_outside by assumption.
    do 2 eexists. exists 0%nat. repeat split; try lia. contradiction.
Qed.

Lemma sand_detail_draws (width : Z) (dist : R) (color : Color) (s : RandomState) :
  exists color' s' k,
    sand_detail width dist color s = Ok (color', s') /\ drew k s s' /\
    (dist > IZR width * 0.3 -> (1 <= k <= 2)%nat) /\
    (~ dist > IZR width * 0.3 -> k = 0%nat).
Proof.
  destruct (Rgt_dec dist (IZR width * 0.3)) as [Hin | Hout].
  - destruct (Rlt_dec (stream s (pos s)) 0.001) as [Hfire | Hquiet].
    + rewrite sand_detail_fires by assumption.
      do 2 eexists. exists 2%nat. repeat split; try lia. contradiction.
    + rewrite sand_detail_quiet by assumption.
      do 2 eexists. exists 1%nat. repeat split; try lia. contradiction.
  - rewrite sand_detail_outside by assumption.
    do 2 eexists. exists 0%nat. repeat split; try lia. contradiction.
Qed.

Lemma drew_trans (k1 k2 : nat) (s s1 s2 : RandomState) :
  drew k1 s s1 -> drew k2 s1 s2 -> drew (k1 + k2) s s2.
Proof.
  intros [Hs1 Hp1] [Hs2 Hp2]. split; [congruence | lia].
Qed.

Lemma texture_pixel_draws (width center_x center_y : Z) (max_radius : R)
    (x y : Z) (s : RandomState) :
  (0 < width)%Z -> max_radius <> 0 ->
  exists color s' k,
    texture_pixel width center_x center_y max_radius x y s = Ok (color, s') /\
    drew k s s' /\ (2 <= k <= 6)%nat.
Proof.
  intros Hwidth Hradius.
  unfold texture_pixel, mbind, lift, math_sqrt, py_div.
  pose proof (squared_offsets_nonneg (x - center_x) (y - center_y)).
  destruct (Rlt_dec _ 0); [lra |].
  destruct (Req_dec_T max_radius 0); [contradiction |].
  set (dist := sqrt _). set (base := gradient_color _).
  unfold detail_and_dither, mbind.
  destruct (grass_detail_draws width dist base s)
    as (cg & sg & kg & -> & Hdg & Hgin & Hgout).
  destruct (sand_detail_draws width dist cg sg)
    as (cs & ss & ks & -> & Hds & Hsin & Hsout).
  rewrite noise_overlay_run.
  do 2 eexists. exists (kg + ks + 1)%nat.
  split; [reflexivity |]. split.
  - apply drew_trans with (s1 := ss); [now apply drew_trans with (s1 := sg) |].
    split; [reflexivity | cbn; lia].
  - destruct (regions_cover_every_distance width dist Hwidth) as [Hg | Hs].
    + specialize (Hgin Hg).
      destruct (Rgt_dec dist (IZR width * 0.3)) as [Hs | Hs];
        [specialize (Hsin Hs) | specialize (Hsout Hs)]; lia.
    + specialize (Hsin Hs).
      destruct (Rlt_dec dist (IZR width * 0.4)) as [Hg | Hg];
        [specialize (Hgin Hg) | specialize (Hgout Hg)]; lia.
Qed.

(** A loop whose body draws between [lo] and [hi] values draws between
    [lo] and [hi] values per turn. *)
Lemma for_each_draws {A : Type} (body : A -> list R -> M (list R)) (lo hi : nat) :
  (forall a pixels s, exists pixels' s' k,
      body a pixels s = Ok (pixels', s') /\ drew k s s' /\ (lo <= k <= hi)%nat) ->
  forall l pixels s, exists pixels' s' k,
      for_each l body pixels s = Ok (pixels', s') /\ drew k s s' /\
      (length l * lo <= k <= length l * hi)%nat.
Proof.
  intros Hbody l.
  induction l as [| a l IH]; intros pixels s.
  - exists pixels, s, 0%nat. repeat split; cbn; lia.
  - destruct (Hbody a pixels s) as (px1 & s1 & k1 & Hrun1 & Hd1 & Hk1).
    destruct (IH px1 s1) as (px2 & s2 & k2 & Hrun2 & Hd2 & Hk2).
    exists px2, s2, (k1 + k2)%nat.
    cbn [for_each]. unfold mbind at 1. rewrite Hrun1, Hrun2.
    split; [reflexivity |].
    split; [now apply drew_trans with (s1 := s1) |].
    cbn [length]. lia.
Qed.

(** X9. Producing the 1024 by 1024 texture takes between two and six
    values per pixel from the generator, so between 2 * 1024 * 1024 and
    6 * 1024 * 1024 in all, and leaves the values to come unchanged. *)
Theorem texture_draw_count (s : RandomState) :
  exists pixels s' k,
    create_detailed_terrain_texture s = Ok (pixels, s') /\
    stream s' = stream s /\
    pos s' = (k + pos s)%nat /\
    (2 * 1024 * 1024 <= Z.of_nat k <= 6 * 1024 * 1024)%Z.
Proof.
  unfold create_detailed_terrain_texture, synthesize.
  destruct (for_each_draws
    (fun y pixels =>
       for_each (range 1024)
         (fun x pixels0 =>
            final_color <~
              texture_pixel 1024 (1024 / 2) (1024 / 2)
                (IZR (Z.min (1024 / 2) (1024 / 2)) * 0.98) x y ;;
            ret (extend pixels0 final_color))
         pixels)
    (length (range 1024) * 2) (length (range 1024) * 6))
    with (l := range 1024) (pixels := @nil R) (s := s)
    as (pixels & s' & k & Hrun & [Hstream Hpos] & Hk).
  - intros y pixels0 s0.
    apply for_each_draws. intros x pixels1 s1.
    destruct (texture_pixel_draws 1024 (1024 / 2) (1024 / 2) _ x y s1
                ltac:(lia) default_max_radius)
      as (c & s2 & k2 & Hpix & Hd2 & Hk2).
    exists (extend pixels1 c), s2, k2.
    unfold mbind. rewrite Hpix. unfold ret. repeat split; try apply Hd2; lia.
  - exists pixels, s', k.
    split; [exact Hrun |]. split; [exact Hstream |]. split; [exact Hpos |].
    rewrite range_length in Hk.
    assert (Hn : Z.of_nat (Z.to_nat 1024) = 1024%Z) by (apply Z2Nat.id; lia).
    destruct Hk as [Hlo Hhi].
    apply Nat2Z.inj_le in Hlo, Hhi.
    rewrite !Nat2Z.inj_mul, Hn in Hlo, Hhi.
    change (Z.of_nat 2) with 2%Z in Hlo.
    change (Z.of_nat 6) with 6%Z in Hhi.
    lia.
Qed.

(** *** The noise overlay on the base colour *)

(** Up to a normalised distance of 1.45 the channels of the base colour
    stay well inside the unit interval. *)
Lemma gradient_channels_range (u : R) :
  0 <= u <= 1.45 ->
  0.1 <= c0 (gradient_color u) <= 0.8 /\
  0.1 <= c1 (gradient_color u) <= 0.8 /\
  0.05 <= c2 (gradient_color u) <= 0.8.
Proof.
  intros Hu. gradient_cases u;
    unfold lerp_color, grass_center, medium_green, sandy_beach,
      darker_sand, wet_sand; cbn [c0 c1 c2];
    repeat split; lra.
Qed.

Lemma clamp_inactive (v : R) : 0 < v < 1 -> py_max 0.0 (py_min 1.0 v) = v.
Proof.
  intros Hv. unfold py_max, py_min.
  destruct (Rlt_dec v 1.0); [| lra].
  destruct (Rgt_dec v 0.0); [reflexivity | lra].
Qed.

(** Every pixel of the texture is at a normalised distance of at most
    1.45. *)
Lemma texture_normalized_dist_range (x y : Z) :
  (0 <= x < 1024)%Z -> (0 <= y < 1024)%Z ->
  exists dist u,
    math_sqrt (IZR ((x - 1024 / 2) ^ 2 + (y - 1024 / 2) ^ 2)) = Ok dist /\
    py_div dist (IZR (Z.min (1024 / 2) (1024 / 2)) * 0.98) = Ok u /\
    0 <= u <= 1.45.
Proof.
  intros Hx Hy.
  replace (1024 / 2)%Z with 512%Z by reflexivity.
  replace (Z.min 512 512) with 512%Z by reflexivity.
  set (n := ((x - 512) ^ 2 + (y - 512) ^ 2)%Z).
  assert (Hn0 : 0 <= IZR n) by apply squared_offsets_nonneg.
  assert (Hn1 : IZR n <= 524288) by (apply IZR_le; unfold n; nia).
  exists (sqrt (IZR n)), (sqrt (IZR n) / (512 * 0.98)).
  split.
  - unfold math_sqrt. destruct (Rlt_dec (IZR n) 0); [lra | reflexivity].
  - split.
    + unfold py_div.
      destruct (Req_dec_T (512 * 0.98) 0); [lra | reflexivity].
    + pose proof (sqrt_pos (IZR n)) as Hs0.
      assert (Hs1 : sqrt (IZR n) <= 727).
      { rewrite <- (sqrt_square 727) by lra.
        apply sqrt_le_1_alt. lra. }
      split.
      * apply Rmult_le_pos; [assumption |].
        apply Rlt_le, Rinv_0_lt_compat. lra.
      * lra.
Qed.

(** X10. On the base colour of any pixel of the texture the final clamp
    does nothing: with a draw in [0,1) the overlaid colour is exactly the
    base colour with the noise added to its red, green and blue. *)
Theorem noise_overlay_never_clamps_base (x y : Z) (d : R) :
  (0 <= x < 1024)%Z -> (0 <= y < 1024)%Z -> 0 <= d < 1 ->
  exists dist u,
    math_sqrt (IZR ((x - 1024 / 2) ^ 2 + (y - 1024 / 2) ^ 2)) = Ok dist /\
    py_div dist (IZR (Z.min (1024 / 2) (1024 / 2)) * 0.98) = Ok u /\
    final_color (gradient_color u) ((d - 0.5) * 0.08) =
    rgba (c0 (gradient_color u) + (d - 0.5) * 0.08)
         (c1 (gradient_color u) + (d - 0.5) * 0.08)
         (c2 (gradient_color u) + (d - 0.5) * 0.08)
         1.0.
Proof.
  intros Hx Hy Hd.
  destruct (texture_normalized_dist_range x y Hx Hy)
    as (dist & u & Hsqrt & Hdiv & Hu).
  exists dist, u. split; [exact Hsqrt |]. split; [exact Hdiv |].
  destruct (gradient_channels_range u Hu) as (Hr & Hg & Hb).
  unfold final_color. rewrite !clamp_inactive by lra. reflexivity.
Qed.

Lemma noise_overlay_never_clamps_base_witness :
  (0 <= 0 < 1024)%Z /\ 0 <= 0.25 < 1 /\
  exists dist u,
    math_sqrt (IZR ((0 - 1024 / 2) ^ 2 + (0 - 1024 / 2) ^ 2)) = Ok dist /\
    py_div dist (IZR (Z.min (1024 / 2) (1024 / 2)) * 0.98) = Ok u /\
    final_color (gradient_color u) ((0.25 - 0.5) * 0.08) =
    rgba (c0 (gradient_color u) + (0.25 - 0.5) * 0.08)
         (c1 (gradient_color u) + (0.25 - 0.5) * 0.08)
         (c2 (gradient_color u) + (0.25 - 0.5) * 0.08)
         1.0.
Proof.
  split; [lia |]. split; [lra |].
  apply (noise_overlay_never_clamps_base 0 0 0.25); [lia | lia | lra].
Defined.

(** ** Rocks *)

Lemma sqrt_polar (angle radius : R) :
  0 <= radius ->
  sqrt (cos angle * radius * (cos angle * radius) +
        sin angle * radius * (sin angle * radius)) = radius.
Proof.
  intros Hr.
  pose proof (sin2_cos2 angle) as Hunit. unfold Rsqr in Hunit.
  replace (cos angle * radius * (cos angle * radius) +
           sin angle * radius * (sin angle * radius))
    with ((sin angle * sin angle + cos angle * cos angle) * (radius * radius))
    by ring.
  rewrite Hunit, Rmult_1_l. now apply sqrt_square.
Qed.

(** Between 80 and 200 from the centre the terrain without noise is between
    -5 and -1.25: the rim of the dome, then the shelf. *)
Lemma rock_ring_profile (radius : R) :
  80 <= radius < 200 ->
  -5 <= radial_profile default_terrain_params radius <= -1.25.
Proof.
  intros [Hlo Hhi].
  destruct (Rle_lt_dec 100 radius) as [Hshelf | Hdome].
  - rewrite radial_profile_shelf; cbn; lra.
  - unfold radial_profile.
    cbn [default_terrain_params hill_radius island_radius base_ground_level
         hill_height].
    destruct (Rge_dec radius 220); [lra |].
    destruct (Rlt_dec radius 100); [| lra].
    pose proof PI_RGT_0 as Hpi.
    set (theta := radius / 100 * (PI / 2)).
    assert (Hth0 : PI / 3 <= theta) by (unfold theta; nra).
    assert (Hth1 : theta <= PI / 2) by (unfold theta; nra).
    assert (Hcos1 : cos theta <= 1 / 2)
      by (rewrite <- cos_PI3; apply cos_decr_1; lra).
    assert (Hcos0 : 0 <= cos theta) by (apply cos_ge_0; lra).
    nra.
Qed.

Lemma place_rock_on_ring (s : RandomState) :
  unit_draws s ->
  exists rock s',
    place_rock default_terrain_params s = Ok (rock, s') /\
    drew 12 s s' /\ rock_on_ring rock.
Proof.
  intros Hdraws.
  cbv [place_rock mbind random_random lift ret stream pos].
  rewrite calculate_terrain_height_profile. cbv beta iota.
  do 2 eexists. split; [reflexivity |].
  split; [split; reflexivity |].
  unfold rock_on_ring. cbn [location rock_radius].
  destruct s as [st n]. cbn [stream pos] in *.
  pose proof (Hdraws (S n)) as Hd1. pose proof (Hdraws (S (S n))) as Hd2.
  cbn [stream] in Hd1, Hd2.
  set (radius := 80 + st (S n) * 120) in *.
  assert (Hradius : 80 <= radius < 200) by (unfold radius; lra).
  rewrite sqrt_polar by lra.
  pose proof (rock_ring_profile radius Hradius).
  pose proof (noise_within (cos (st n * 2 * PI) * radius)
                           (sin (st n * 2 * PI) * radius)).
  repeat split; lra.
Qed.

Lemma unit_draws_drew (k : nat) (s s' : RandomState) :
  unit_draws s -> drew k s s' -> unit_draws s'.
Proof.
  intros Hdraws [Hstream _] n. rewrite Hstream. apply Hdraws.
Qed.

Lemma place_rocks_on_ring (count : nat) :
  forall s, unit_draws s ->
  exists rocks s',
    place_rocks default_terrain_params count s = Ok (rocks, s') /\
    drew (12 * count) s s' /\
    length rocks = count /\
    Forall rock_on_ring rocks.
Proof.
  induction count as [| count IH]; intros s Hdraws.
  - exists [], s. repeat split. constructor.
  - destruct (place_rock_on_ring s Hdraws) as (rock & s1 & Hrun1 & Hd1 & Hrock).
    destruct (IH s1 (unit_draws_drew _ _ _ Hdraws Hd1))
      as (rocks & s2 & Hrun2 & Hd2 & Hlen & Hrocks).
    exists (rock :: rocks), s2.
    cbn [place_rocks]. unfold mbind at 1. rewrite Hrun1.
    unfold mbind at 1. rewrite Hrun2. unfold ret.
    split; [reflexivity |]. split.
    + replace (12 * S count)%nat with (12 + 12 * count)%nat by lia.
      now apply drew_trans with (s1 := s1).
    + split; [cbn [length]; lia | now constructor].
Qed.

(** X11. With draws in [0,1), [create_high_detail_rocks] places eight
    rocks and takes 96 values from the generator; every rock stands between
    80 and 200 from the centre, so on the island and never in the void, its
    centre is between -5.04 and -0.21 in height, and its radius is from 1.5
    up to 4. *)
Theorem rocks_on_island (s : RandomState) :
  unit_draws s ->
  exists rocks s',
    create_high_detail_rocks default_terrain_params s = Ok (rocks, s') /\
    length rocks = 8%nat /\
    stream s' = stream s /\
    pos s' = (96 + pos s)%nat /\
    Forall rock_on_ring rocks.
Proof.
  intros Hdraws.
  destruct (place_rocks_on_ring 8 s Hdraws)
    as (rocks & s' & Hrun & [Hstream Hpos] & Hlen & Hrocks).
  exists rocks, s'. repeat split; assumption.
Qed.

Lemma rocks_on_island_witness :
  unit_draws (stream_of [0; 0; 0] 0.5) /\
  exists rocks s',
    create_high_detail_rocks default_terrain_params (stream_of [0; 0; 0] 0.5) =
      Ok (rocks, s') /\
    length rocks = 8%nat.
Proof.
  split; [exact unit_draws_stream_of_half |].
  destruct (rocks_on_island (stream_of [0; 0; 0] 0.5) unit_draws_stream_of_half)
    as (rocks & s' & Hrun & Hlen & _).
  exists rocks, s'. split; assumption.
Defined.

(** ** Normal map *)

Lemma interleave_app (cs1 cs2 : list Color) :
  interleave (cs1 ++ cs2) = interleave cs1 ++ interleave cs2.
Proof. unfold interleave. apply flat_map_app. Qed.

Lemma normal_row {A : Type} (l : list A) :
  forall pixels,
    for_pure l (fun _ acc => acc ++ [0.5; 0.5; 1.0; 1.0]) pixels =
    pixels ++ interleave (repeat up_normal (length l)).
Proof.
  unfold for_pure.
  induction l as [| a l IH]; intros pixels; cbn [fold_left length repeat].
  - now rewrite app_nil_r.
  - rewrite IH, <- app_assoc. reflexivity.
Qed.

Lemma normal_rows {A B : Type} (rows : list A) (row : list B) :
  forall pixels,
    for_pure rows
      (fun _ acc => for_pure row (fun _ acc' => acc' ++ [0.5; 0.5; 1.0; 1.0]) acc)
      pixels =
    pixels ++ interleave (repeat up_normal (length rows * length row)).
Proof.
  induction rows as [| a rows IH]; intros pixels.
  - cbn. now rewrite app_nil_r.
  - unfold for_pure in *. cbn [fold_left length Nat.mul].
    rewrite IH. fold (for_pure row (fun (_ : B) acc' => acc' ++ [0.5; 0.5; 1.0; 1.0]) pixels).
    rewrite normal_row, repeat_app, interleave_app, app_assoc. reflexivity.
Qed.

(** X12. The normal map is 512 * 512 pixels, all of them
    [(0.5, 0.5, 1.0, 1.0)], the normal that points straight up. *)
Theorem normal_map_uniform :
  exists n : nat,
    Z.of_nat n = (512 * 512)%Z /\
    create_terrain_normal_map = interleave (repeat up_normal n) /\
    Z.of_nat (length create_terrain_normal_map) = (4 * 512 * 512)%Z.
Proof.
  exists (length (range 512) * length (range 512))%nat.
  assert (Hn : Z.of_nat (length (range 512) * length (range 512)) = (512 * 512)%Z).
  { rewrite Nat2Z.inj_mul, range_length, Z2Nat.id by lia. reflexivity. }
  assert (Hmap : create_terrain_normal_map =
                 interleave (repeat up_normal
                               (length (range 512) * length (range 512)))).
  { unfold create_terrain_normal_map, normal_map.
    rewrite normal_rows. reflexivity. }
  split; [exact Hn |]. split; [exact Hmap |].
  rewrite Hmap, interleave_length, repeat_length, Nat2Z.inj_mul, Hn.
  reflexivity.
Qed.

(** ** Mesh *)

Lemma plane_distance (x y : R) :
  -250 <= x <= 250 -> -250 <= y <= 250 -> sqrt (x * x + y * y) <= 354.
Proof.
  intros Hx Hy.
  rewrite <- (sqrt_square 354) by lra.
  apply sqrt_le_1_alt. nra.
Qed.

Lemma plane_height_range (x y : R) :
  -250 <= x <= 250 -> -250 <= y <= 250 ->
  -186 <=
    radial_profile default_terrain_params (sqrt (x * x + y * y)) +
    get_surface_noise x y <= 10.54.
Proof.
  intros Hx Hy.
  pose proof (plane_distance x y Hx Hy) as Hd.
  pose proof (noise_within x y) as Hnoise.
  assert (Hheight : 0 <= hill_height default_terrain_params) by (cbn; lra).
  pose proof (radial_profile_upper default_terrain_params Hheight
                (sqrt (x * x + y * y))) as Hup.
  cbn [default_terrain_params base_ground_level hill_height] in Hup.
  split; [| lra].
  destruct (Rle_lt_dec 220 (sqrt (x * x + y * y))) as [Hout | Hin].
  - rewrite radial_profile_void by (cbn; lra).
    cbn [default_terrain_params base_ground_level island_radius]. nra.
  - pose proof (radial_profile_island_lower default_terrain_params Hheight
                  (sqrt (x * x + y * y))) as Hlow.
    cbn [default_terrain_params base_ground_level island_radius] in Hlow.
    specialize (Hlow Hin). lra.
Qed.

(** X13. Displacing the vertices of the plane of side 500 never fails and
    keeps their number and order; every vertex keeps its [x] and [y], and
    its new height, whatever the old one, is between -186 and 10.54. *)
Theorem terrain_mesh_extent (verts : list Vertex) :
  Forall on_plane verts ->
  exists verts',
    displace_vertices default_terrain_params verts = Ok verts' /\
    Forall2 displaced verts verts'.
Proof.
  induction 1 as [| [[x y] z0] verts Hv _ IH].
  - exists []. split; [reflexivity | constructor].
  - destruct IH as (verts' & Hrun & Hall).
    cbn [displace_vertices].
    rewrite calculate_terrain_height_profile. cbn [bind].
    rewrite Hrun. cbn [bind].
    eexists. split; [reflexivity |].
    constructor; [| exact Hall].
    unfold on_plane in Hv. destruct Hv as [Hx Hy].
    unfold displaced.
    pose proof (plane_height_range x y Hx Hy).
    repeat split; lra.
Qed.

Lemma terrain_mesh_extent_witness :
  Forall on_plane [(250, -250, 0); (0, 0, 7)] /\
  exists verts',
    displace_vertices default_terrain_params [(250, -250, 0); (0, 0, 7)] =
      Ok verts' /\
    Forall2 displaced [(250, -250, 0); (0, 0, 7)] verts'.
Proof.
  assert (Hplane : Forall on_plane [(250, -250, 0); (0, 0, 7)]).
  { repeat constructor; cbn; lra. }
  split; [exact Hplane |].
  exact (terrain_mesh_extent _ Hplane).
Defined.

(** * The forest extraction script *)

(** ** Characters *)

Ltac each_char c :=
  destruct c as [[] [] [] [] [] [] [] []]; vm_compute;
  try reflexivity; try (intros; (reflexivity || discriminate)).

Lemma lower_char_underscore (c : ascii) :
  is_underscore (lower_char c) = is_underscore c.
Proof. each_char c. Qed.

Lemma lower_char_word (c : ascii) :
  is_word_char c = true -> is_clean_char (lower_char c) = true.
Proof. each_char c. Qed.

Lemma clean_char_fixed (c : ascii) :
  is_clean_char c = true -> lower_char c = c.
Proof. each_char c. Qed.

Lemma clean_char_word (c : ascii) :
  is_clean_char c = true -> is_word_char c = true.
Proof. each_char c. Qed.

Lemma alnum_not_underscore (c : ascii) :
  is_alnum c = true -> is_underscore c = false.
Proof. each_char c. Qed.

Lemma word_char_cases (c : ascii) :
  is_word_char c = is_alnum c || is_underscore c.
Proof. each_char c. Qed.

Lemma is_underscore_eq (c : ascii) : is_underscore c = true -> c = "_"%char.
Proof. unfold is_underscore. apply Ascii.eqb_eq. Qed.

(** ** The steps of [clean_object_name] *)

Lemma single_cons_plain (c : ascii) (s : text) :
  is_underscore c = false ->
  single_underscores (c :: s) = single_underscores s.
Proof.
  intros Hc. destruct s as [| d s]; [reflexivity |].
  cbn [single_underscores]. now rewrite Hc.
Qed.

Lemma single_cons_before_plain (c d : ascii) (s : text) :
  is_underscore d = false ->
  single_underscores (c :: d :: s) = single_underscores (d :: s).
Proof.
  intros Hd. cbn [single_underscores]. now rewrite Hd, Bool.andb_false_r.
Qed.

Lemma single_tail (c : ascii) (s : text) :
  single_underscores (c :: s) = true -> single_underscores s = true.
Proof.
  destruct s as [| d s]; [reflexivity |].
  cbn [single_underscores]. intros H. apply andb_prop in H. apply H.
Qed.

Lemma squeeze_cons_plain (c : ascii) (s : text) :
  is_underscore c = false ->
  squeeze_underscores (c :: s) = c :: squeeze_underscores s.
Proof. intros Hc. cbn [squeeze_underscores]. now rewrite Hc. Qed.

Lemma squeeze_single (s : text) :
  single_underscores (squeeze_underscores s) = true.
Proof.
  induction s as [| c rest IH]; [reflexivity |].
  destruct (is_underscore c) eqn:Hc.
  - cbn [squeeze_underscores]. rewrite Hc.
    destruct rest as [| d rest]; [reflexivity |].
    destruct (is_underscore d) eqn:Hd; [exact IH |].
    rewrite squeeze_cons_plain in * by assumption.
    now rewrite single_cons_before_plain.
  - rewrite squeeze_cons_plain, single_cons_plain by assumption. exact IH.
Qed.

Lemma squeeze_fixed (s : text) :
  single_underscores s = true -> squeeze_underscores s = s.
Proof.
  induction s as [| c rest IH]; [reflexivity |]. intros Hs.
  pose proof (single_tail _ _ Hs) as Hrest.
  cbn [squeeze_underscores].
  destruct (is_underscore c) eqn:Hc.
  - destruct rest as [| d rest]; [reflexivity |].
    cbn [single_underscores] in Hs. rewrite Hc in Hs.
    destruct (is_underscore d); [discriminate |].
    now rewrite IH.
  - now rewrite IH.
Qed.

Lemma squeeze_subset (s : text) (c : ascii) :
  In c (squeeze_underscores s) -> In c s.
Proof.
  induction s as [| a rest IH]; [auto |].
  cbn [squeeze_underscores].
  destruct (is_underscore a).
  - destruct rest as [| d rest]; [auto |].
    destruct (is_underscore d).
    + intros H. right. now apply IH.
    + intros [-> | H]; [now left | right; now apply IH].
  - intros [-> | H]; [now left | right; now apply IH].
Qed.

Lemma squeeze_keeps_plain (s : text) (c : ascii) :
  is_underscore c = false -> In c s -> In c (squeeze_underscores s).
Proof.
  intros Hc. induction s as [| a rest IH]; [auto |].
  intros [-> | Hin].
  - rewrite squeeze_cons_plain by assumption. now left.
  - specialize (IH Hin). cbn [squeeze_underscores].
    destruct (is_underscore a).
    + destruct rest as [| d rest]; [contradiction |].
      destruct (is_underscore d); [exact IH | now right].
    + now right.
Qed.

Lemma lstrip_subset (s : text) (c : ascii) :
  In c (lstrip_underscores s) -> In c s.
Proof.
  induction s as [| a rest IH]; [auto |].
  cbn [lstrip_underscores].
  destruct (is_underscore a); [intros H; right; now apply IH | auto].
Qed.

Lemma lstrip_keeps_plain (s : text) (c : ascii) :
  is_underscore c = false -> In c s -> In c (lstrip_underscores s).
Proof.
  intros Hc. induction s as [| a rest IH]; [auto |].
  cbn [lstrip_underscores]. intros Hin.
  destruct (is_underscore a) eqn:Ha; [| exact Hin].
  destruct Hin as [-> | Hin]; [congruence | now apply IH].
Qed.

Lemma lstrip_single (s : text) :
  single_underscores s = true ->
  single_underscores (lstrip_underscores s) = true.
Proof.
  induction s as [| a rest IH]; [auto |]. intros Hs.
  cbn [lstrip_underscores].
  destruct (is_underscore a); [| exact Hs].
  apply IH. now apply single_tail in Hs.
Qed.

Lemma lstrip_twice (s : text) :
  lstrip_underscores (lstrip_underscores s) = lstrip_underscores s.
Proof.
  induction s as [| a rest IH]; [reflexivity |].
  cbn [lstrip_underscores].
  destruct (is_underscore a) eqn:Ha; [exact IH |].
  cbn [lstrip_underscores]. now rewrite Ha.
Qed.

Lemma lstrip_length (s : text) :
  (length (lstrip_underscores s) <= length s)%nat.
Proof.
  induction s as [| a rest IH]; [reflexivity |].
  cbn [lstrip_underscores]. destruct (is_underscore a); cbn [length]; lia.
Qed.

(** A text that [lstrip_underscores] leaves alone does not start with an
    underscore. *)
Lemma lstrip_fixed_head (c : ascii) (rest : text) :
  lstrip_underscores (c :: rest) = c :: rest -> is_underscore c = false.
Proof.
  cbn [lstrip_underscores]. destruct (is_underscore c); [| reflexivity].
  intros H. pose proof (lstrip_length rest) as Hlen.
  rewrite H in Hlen. cbn [length] in Hlen. lia.
Qed.

Lemma rstrip_subset (s : text) (c : ascii) :
  In c (rstrip_underscores s) -> In c s.
Proof.
  induction s as [| a rest IH]; [auto |].
  cbn [rstrip_underscores].
  destruct (rstrip_underscores rest) as [| k kept].
  - destruct (is_underscore a); [contradiction |].
    intros [-> | []]. now left.
  - intros [-> | H]; [now left | right; now apply IH].
Qed.

Lemma rstrip_keeps_plain (s : text) (c : ascii) :
  is_underscore c = false -> In c s -> In c (rstrip_underscores s).
Proof.
  intros Hc. induction s as [| a rest IH]; [auto |].
  cbn [rstrip_underscores]. intros [-> | Hin].
  - destruct (rstrip_underscores rest); [rewrite Hc |]; now left.
  - specialize (IH Hin).
    destruct (rstrip_underscores rest); [contradiction | now right].
Qed.

Lemma rstrip_prefix (s : text) :
  exists tail, s = rstrip_underscores s ++ tail.
Proof.
  induction s as [| a rest [tail IH]]; [now exists [] |].
  cbn [rstrip_underscores].
  destruct (rstrip_underscores rest) as [| k kept].
  - destruct (is_underscore a).
    + now exists (a :: rest).
    + exists rest. reflexivity.
  - exists tail. cbn [app]. f_equal. exact IH.
Qed.

Lemma single_prefix (front tail : text) :
  single_underscores (front ++ tail) = true ->
  single_underscores front = true.
Proof.
  induction front as [| c front IH]; [reflexivity |]. intros H.
  destruct front as [| d front]; [reflexivity |].
  cbn [app single_underscores] in *.
  apply andb_prop in H. destruct H as [Hcd Hrest].
  rewrite Hcd. cbn [andb]. now apply IH.
Qed.

Lemma rstrip_single (s : text) :
  single_underscores s = true ->
  single_underscores (rstrip_underscores s) = true.
Proof.
  intros Hs. destruct (rstrip_prefix s) as [tail Htail].
  rewrite Htail in Hs. now apply single_prefix in Hs.
Qed.

Lemma rstrip_cons_kept (a k : ascii) (rest kept : text) :
  rstrip_underscores rest = k :: kept ->
  rstrip_underscores (a :: rest) = a :: k :: kept.
Proof. intros H. cbn [rstrip_underscores]. now rewrite H. Qed.

Lemma rstrip_twice (s : text) :
  rstrip_underscores (rstrip_underscores s) = rstrip_underscores s.
Proof.
  induction s as [| a rest IH]; [reflexivity |].
  cbn [rstrip_underscores].
  destruct (rstrip_underscores rest) as [| k kept] eqn:Hrest.
  - destruct (is_underscore a) eqn:Ha; [reflexivity |].
    cbn [rstrip_underscores]. now rewrite Ha.
  - now apply rstrip_cons_kept.
Qed.

Lemma rstrip_keeps_head (s : text) :
  lstrip_underscores s = s ->
  lstrip_underscores (rstrip_underscores s) = rstrip_underscores s.
Proof.
  destruct s as [| c rest]; [reflexivity |]. intros Hfix.
  apply lstrip_fixed_head in Hfix.
  cbn [rstrip_underscores].
  destruct (rstrip_underscores rest); rewrite ?Hfix;
    cbn [lstrip_underscores]; now rewrite Hfix.
Qed.

Lemma rstrip_length (s : text) :
  (length (rstrip_underscores s) <= length s)%nat.
Proof.
  destruct (rstrip_prefix s) as [tail Htail].
  rewrite Htail at 2. rewrite length_app. lia.
Qed.

Lemma rstrip_trailing (front : text) :
  rstrip_underscores (front ++ ["_"%char]) = rstrip_underscores front.
Proof.
  induction front as [| c front IH]; [reflexivity |].
  cbn [app rstrip_underscores]. now rewrite IH.
Qed.

(** A text that [rstrip_underscores] leaves alone does not end with an
    underscore. *)
Lemma rstrip_fixed_last (s front : text) :
  rstrip_underscores s = s -> s <> front ++ ["_"%char].
Proof.
  intros Hfix ->. rewrite rstrip_trailing in Hfix.
  pose proof (rstrip_length front) as Hlen.
  rewrite Hfix, length_app in Hlen. cbn [length] in Hlen. lia.
Qed.

(** Lowering the letters moves no underscore, so it commutes with the
    steps that look at underscores only. *)
Lemma squeeze_lower (s : text) :
  squeeze_underscores (lower s) = lower (squeeze_underscores s).
Proof.
  induction s as [| c rest IH]; [reflexivity |].
  cbn [lower map squeeze_underscores]. fold (lower rest).
  rewrite lower_char_underscore.
  destruct (is_underscore c).
  - destruct rest as [| d rest]; [reflexivity |].
    cbn [lower map]. fold (lower rest).
    rewrite lower_char_underscore.
    destruct (is_underscore d); [exact IH |].
    cbn [lower map] in IH. fold (lower rest) in IH. rewrite IH. reflexivity.
  - rewrite IH. reflexivity.
Qed.

Lemma lstrip_lower (s : text) :
  lstrip_underscores (lower s) = lower (lstrip_underscores s).
Proof.
  induction s as [| c rest IH]; [reflexivity |].
  cbn [lower map lstrip_underscores]. fold (lower rest).
  rewrite lower_char_underscore.
  destruct (is_underscore c); [exact IH | reflexivity].
Qed.

Lemma rstrip_lower (s : text) :
  rstrip_underscores (lower s) = lower (rstrip_underscores s).
Proof.
  induction s as [| c rest IH]; [reflexivity |].
  cbn [lower map rstrip_underscores]. fold (lower rest).
  rewrite IH, lower_char_underscore.
  destruct (rstrip_underscores rest) as [| k kept]; cbn [lower map].
  - destruct (is_underscore c); reflexivity.
  - reflexivity.
Qed.

Lemma single_lower (s : text) :
  single_underscores (lower s) = single_underscores s.
Proof.
  induction s as [| c rest IH]; [reflexivity |].
  destruct rest as [| d rest]; [reflexivity |].
  change (single_underscores (lower (c :: d :: rest)))
    with (negb (is_underscore (lower_char c) && is_underscore (lower_char d))
          && single_underscores (lower (d :: rest))).
  rewrite IH, !lower_char_underscore. reflexivity.
Qed.

(** ** [clean_object_name] *)

Lemma replace_special_word (name : text) (c : ascii) :
  In c (replace_special name) -> is_word_char c = true.
Proof.
  unfold replace_special. rewrite in_map_iff. intros (c0 & <- & _).
  destruct (is_word_char c0) eqn:Hc0; [exact Hc0 | reflexivity].
Qed.

(** What holds of a name before its letters are lowered. *)
Lemma stripped_facts (name : text) :
  let s := strip_underscores (squeeze_underscores (replace_special name)) in
  (forall c, In c s -> is_word_char c = true) /\
  single_underscores s = true /\
  lstrip_underscores s = s /\
  rstrip_underscores s = s.
Proof.
  unfold strip_underscores. cbv zeta.
  split; [| split; [| split]].
  - intros c Hc.
    apply rstrip_subset, lstrip_subset, squeeze_subset in Hc.
    now apply replace_special_word in Hc.
  - apply rstrip_single, lstrip_single, squeeze_single.
  - apply rstrip_keeps_head, lstrip_twice.
  - apply rstrip_twice.
Qed.

(** The same of the cleaned name, with the letters lowered. *)
Lemma cleaned_facts (name : text) :
  let r := clean_object_name name in
  forallb is_clean_char r = true /\
  single_underscores r = true /\
  lstrip_underscores r = r /\
  rstrip_underscores r = r.
Proof.
  unfold clean_object_name. cbv zeta.
  destruct (stripped_facts name) as (Hword & Hsingle & Hleft & Hright).
  cbv zeta in *.
  set (s := strip_underscores (squeeze_underscores (replace_special name))) in *.
  split; [| split; [| split]].
  - apply forallb_forall. intros c Hc.
    unfold lower in Hc. apply in_map_iff in Hc. destruct Hc as (c0 & <- & Hc0).
    apply lower_char_word. now apply Hword.
  - now rewrite single_lower.
  - now rewrite lstrip_lower, Hleft.
  - now rewrite rstrip_lower, Hright.
Qed.

(** A name of that shape is left as it is. *)
Lemma clean_fixed (r : text) :
  forallb is_clean_char r = true ->
  single_underscores r = true ->
  lstrip_underscores r = r ->
  rstrip_underscores r = r ->
  clean_object_name r = r.
Proof.
  intros Hchars Hsingle Hleft Hright.
  rewrite forallb_forall in Hchars.
  assert (Hspecial : replace_special r = r).
  { unfold replace_special. rewrite <- (map_id r) at 2.
    apply map_ext_in. intros c Hc.
    now rewrite (clean_char_word c (Hchars c Hc)). }
  assert (Hlower : lower r = r).
  { unfold lower. rewrite <- (map_id r) at 2.
    apply map_ext_in. intros c Hc. apply clean_char_fixed. now apply Hchars. }
  unfold clean_object_name, strip_underscores. cbv zeta.
  now rewrite Hspecial, (squeeze_fixed r Hsingle), Hleft, Hright.
Qed.

(** X14. Whatever the name, the cleaned name is made of lower-case
    letters, digits and underscores only, has no two underscores in a row,
    and neither starts nor ends with an underscore. *)
Theorem clean_object_name_shape (name : text) :
  forallb is_clean_char (clean_object_name name) = true /\
  single_underscores (clean_object_name name) = true /\
  (forall rest, clean_object_name name <> "_"%char :: rest) /\
  (forall front, clean_object_name name <> front ++ ["_"%char]).
Proof.
  destruct (cleaned_facts name) as (Hchars & Hsingle & Hleft & Hright).
  cbv zeta in *.
  split; [exact Hchars |]. split; [exact Hsingle |]. split.
  - intros rest Heq. rewrite Heq in Hleft.
    apply lstrip_fixed_head in Hleft. discriminate.
  - intros front. now apply rstrip_fixed_last.
Qed.

(** X15. Cleaning a name twice gives what cleaning it once gives, and the
    names that cleaning leaves unchanged are exactly those made of
    lower-case letters, digits and single underscores that neither start
    nor end with an underscore. *)
Theorem clean_object_name_idempotent (name : text) :
  clean_object_name (clean_object_name name) = clean_object_name name /\
  (clean_object_name name = name <->
   forallb is_clean_char name = true /\
   single_underscores name = true /\
   lstrip_underscores name = name /\
   rstrip_underscores name = name).
Proof.
  pose proof (cleaned_facts name) as Hfacts. cbv zeta in Hfacts.
  split.
  - destruct Hfacts as (Hchars & Hsingle & Hleft & Hright).
    now apply clean_fixed.
  - split.
    + intros Heq. now rewrite Heq in Hfacts.
    + intros (Hchars & Hsingle & Hleft & Hright). now apply clean_fixed.
Qed.

(** X16. The cleaned name is empty exactly when the name has no letter and
    no digit; the file of such an object is then [.glb], whatever the
    name. *)
Theorem clean_object_name_empty (name : text) :
  clean_object_name name = [] <->
  forallb (fun c => negb (is_alnum c)) name = true.
Proof.
  split.
  - intros Hempty. apply forallb_forall. intros c Hc.
    destruct (is_alnum c) eqn:Halnum; [| reflexivity]. exfalso.
    pose proof (alnum_not_underscore c Halnum) as Hplain.
    assert (Hkept : In c (replace_special name)).
    { unfold replace_special. apply in_map_iff. exists c. split; [| exact Hc].
      now rewrite word_char_cases, Halnum. }
    apply (squeeze_keeps_plain _ _ Hplain) in Hkept.
    apply (lstrip_keeps_plain _ _ Hplain) in Hkept.
    apply (rstrip_keeps_plain _ _ Hplain) in Hkept.
    apply (in_map lower_char) in Hkept.
    unfold clean_object_name, strip_underscores, lower in Hempty.
    cbv zeta in Hempty. rewrite Hempty in Hkept. exact Hkept.
  - intros Hnone. rewrite forallb_forall in Hnone.
    destruct (cleaned_facts name) as (_ & _ & Hleft & _). cbv zeta in Hleft.
    destruct (clean_object_name name) as [| c rest] eqn:Hclean; [reflexivity |].
    exfalso.
    apply lstrip_fixed_head in Hleft.
    assert (Hin : In c (clean_object_name name)) by (rewrite Hclean; now left).
    unfold clean_object_name, strip_underscores in Hin. cbv zeta in Hin.
    unfold lower in Hin. apply in_map_iff in Hin.
    destruct Hin as (c0 & Hc0 & Hin).
    apply rstrip_subset, lstrip_subset, squeeze_subset in Hin.
    unfold replace_special in Hin. apply in_map_iff in Hin.
    destruct Hin as (c1 & Hc1 & Hin).
    specialize (Hnone c1 Hin).
    assert (Hus : is_underscore c0 = true).
    { rewrite <- Hc1, word_char_cases.
      destruct (is_alnum c1); [discriminate |].
      destruct (is_underscore c1) eqn:Hu; [exact Hu | reflexivity]. }
    rewrite <- Hc0, lower_char_underscore, Hus in Hleft. discriminate.
Qed.

(** ** [classify_object] *)

(** X17. Whatever the name, the category of an object is one of the five
    keys of [extracted_models], so filing the object under its category
    finds the key; its export directory is one of those that
    [setup_output_directories] creates unless the category is [other], for
    which no directory is created; and [other] does occur. *)
Theorem classify_object_category (obj_name : text) :
  In (classify_object obj_name) extracted_models_keys /\
  (classify_object obj_name = txt "other" \/
   In (export_directory (classify_object obj_name)) setup_output_directories) /\
  ~ In (export_directory (txt "other")) setup_output_directories /\
  classify_object (txt "Cube.001") = txt "other".
Proof.
  split; [| split; [| split]].
  - unfold classify_object. cbv zeta.
    repeat match goal with
           | |- context [if ?b then _ else _] => destruct b
           end; vm_compute; tauto.
  - unfold classify_object. cbv zeta.
    repeat match goal with
           | |- context [if ?b then _ else _] => destruct b
           end; vm_compute; tauto.
  - vm_compute. intros H.
    repeat (destruct H as [H | H]; [discriminate H |]). exact H.
  - vm_compute. reflexivity.
Qed.

(** ** [get_object_bounds] *)

Lemma fold_py_min_le_start (l : list R) :
  forall a, fold_left py_min l a <= a.
Proof.
  induction l as [| b l IH]; intros a; cbn [fold_left]; [lra |].
  eapply Rle_trans; [apply IH |].
  unfold py_min. destruct (Rlt_dec b a); lra.
Qed.

Lemma fold_py_min_le (l : list R) :
  forall a x, In x (a :: l) -> fold_left py_min l a <= x.
Proof.
  induction l as [| b l IH]; intros a x Hin; cbn [fold_left].
  - destruct Hin as [-> | []]. lra.
  - destruct Hin as [<- | Hin].
    + eapply Rle_trans; [apply fold_py_min_le_start |].
      unfold py_min. destruct (Rlt_dec b a); lra.
    + destruct Hin as [<- | Hin].
      * eapply Rle_trans; [apply fold_py_min_le_start |].
        unfold py_min. destruct (Rlt_dec b a); lra.
      * apply IH. now right.
Qed.

Lemma fold_py_max_ge_start (l : list R) :
  forall a, a <= fold_left py_max l a.
Proof.
  induction l as [| b l IH]; intros a; cbn [fold_left]; [lra |].
  eapply Rle_trans; [| apply IH].
  unfold py_max. destruct (Rgt_dec b a); lra.
Qed.

Lemma fold_py_max_ge (l : list R) :
  forall a x, In x (a :: l) -> x <= fold_left py_max l a.
Proof.
  induction l as [| b l IH]; intros a x Hin; cbn [fold_left].
  - destruct Hin as [-> | []]. lra.
  - destruct Hin as [<- | Hin].
    + eapply Rle_trans; [| apply fold_py_max_ge_start].
      unfold py_max. destruct (Rgt_dec b a); lra.
    + destruct Hin as [<- | Hin].
      * eapply Rle_trans; [| apply fold_py_max_ge_start].
        unfold py_max. destruct (Rgt_dec b a); lra.
      * apply IH. now right.
Qed.

(** X18. [get_object_bounds] returns [None] for an object that is not a
    mesh and raises [ValueError] for a mesh with no corner; for a mesh with
    corners it returns a width, height and depth that are at least the
    difference, along the axis, of any two corners, so none is negative. *)
Theorem get_object_bounds_cases (obj_type : text) (bbox : list (R * R * R)) :
  (obj_type <> txt "MESH" -> get_object_bounds obj_type bbox = Ok None) /\
  (obj_type = txt "MESH" -> bbox = [] ->
     get_object_bounds obj_type bbox = Raise ValueError) /\
  (obj_type = txt "MESH" -> bbox <> [] ->
     exists b,
       get_object_bounds obj_type bbox = Ok (Some b) /\
       forall v v', In v bbox -> In v' bbox ->
         fst (fst v) - fst (fst v') <= bounds_width b /\
         snd (fst v) - snd (fst v') <= bounds_height b /\
         snd v - snd v' <= bounds_depth b).
Proof.
  unfold get_object_bounds.
  destruct (list_eq_dec ascii_dec obj_type (txt "MESH")) as [Hmesh | Hother].
  - split; [intros H; contradiction |].
    split; [intros _ ->; reflexivity |].
    intros _ Hcorners.
    destruct bbox as [| v0 bbox]; [contradiction |].
    eexists. split; [reflexivity |].
    intros v v' Hv Hv'. cbn [bounds_width bounds_height bounds_depth].
    repeat split.
    + pose proof (fold_py_max_ge _ _ _ (in_map (fun v => fst (fst v)) _ _ Hv)).
      pose proof (fold_py_min_le _ _ _ (in_map (fun v => fst (fst v)) _ _ Hv')).
      cbn [map] in *. lra.
    + pose proof (fold_py_max_ge _ _ _ (in_map (fun v => snd (fst v)) _ _ Hv)).
      pose proof (fold_py_min_le _ _ _ (in_map (fun v => snd (fst v)) _ _ Hv')).
      cbn [map] in *. lra.
    + pose proof (fold_py_max_ge _ _ _ (in_map (fun v => snd v) _ _ Hv)).
      pose proof (fold_py_min_le _ _ _ (in_map (fun v => snd v) _ _ Hv')).
      cbn [map] in *. lra.
  - split; [reflexivity |].
    split; intros H; contradiction.
Qed.

Lemma get_object_bounds_cases_witness :
  txt "MESH" = txt "MESH" /\ [(0, 0, 0); (2, 3, 5)] <> [] /\
  exists b,
    get_object_bounds (txt "MESH") [(0, 0, 0); (2, 3, 5)] = Ok (Some b) /\
    2 - 0 <= bounds_width b.
Proof.
  assert (Hcorners : [(0, 0, 0); (2, 3, 5)] <> @nil (R * R * R))
    by discriminate.
  split; [reflexivity |]. split; [exact Hcorners |].
  destruct (proj2 (proj2 (get_object_bounds_cases (txt "MESH")
                            [(0, 0, 0); (2, 3, 5)])) eq_refl Hcorners)
    as (b & Hrun & Hcover).
  exists b. split; [exact Hrun |].
  apply (Hcover (2, 3, 5) (0, 0, 0)); cbn; auto.
Defined.

(** * The other asset tools *)

Ltac each_branch :=
  cbv zeta;
  repeat match goal with
         | |- context [if ?b then _ else _] => destruct b
         end;
  vm_compute; tauto.

(** X19. Every category that [categorize_scifi_model] or
    [categorize_nature_model] can give is one that
    [update_library_manifest] scans, so no organised model is left out of
    the library for its category; the first gives [decorative] or
    [structures] only, and a name with [alien_] in it is [decorative]
    whatever else it contains. *)
Theorem organized_categories_scanned (filename : text) :
  In (categorize_scifi_model filename) library_categories /\
  In (categorize_nature_model filename) library_categories /\
  (categorize_scifi_model filename = txt "decorative" \/
   categorize_scifi_model filename = txt "structures") /\
  (contains (txt "alien_") (lower filename) = true ->
   categorize_scifi_model filename = txt "decorative").
Proof.
  split; [unfold categorize_scifi_model; each_branch |].
  split; [unfold categorize_nature_model; each_branch |].
  split; [unfold categorize_scifi_model; each_branch |].
  intros Halien. unfold categorize_scifi_model. cbv zeta.
  now rewrite Halien.
Qed.

Lemma organized_categories_scanned_witness :
  contains (txt "alien_") (lower (txt "Prop_Alien_Wall.fbx")) = true /\
  categorize_scifi_model (txt "Prop_Alien_Wall.fbx") = txt "decorative".
Proof.
  assert (Halien : contains (txt "alien_") (lower (txt "Prop_Alien_Wall.fbx"))
                   = true) by reflexivity.
  split; [exact Halien |].
  exact (proj2 (proj2 (proj2
           (organized_categories_scanned (txt "Prop_Alien_Wall.fbx")))) Halien).
Defined.

(** X20. Whatever the name and the type of an object, [categorize_object]
    gives one of the six categories for which [extract_models] creates a
    directory. *)
Theorem categorize_object_has_directory (obj_name obj_type : text) :
  In (categorize_object obj_name obj_type) extract_categories.
Proof. unfold categorize_object. each_branch. Qed.

(** * The height function on doubles *)

(** ** Sizes *)

Lemma limit_value : 1.79e308 < Doubles.limit < 1.8e308.
Proof.
  unfold Doubles.limit.
  let v := eval vm_compute in (2 ^ 1024)%Z in change (2 ^ 1024)%Z with v.
  lra.
Qed.

Lemma abs_bounds (r b : R) : Rabs r <= b -> - b <= r <= b.
Proof. unfold Rabs. destruct (Rcase_abs r); lra. Qed.

Lemma fit_fin (r : R) :
  Rabs r < Doubles.limit -> Doubles.fit r = Doubles.Fin r.
Proof.
  intros Hr. unfold Doubles.fit.
  assert (Hb : - Doubles.limit < r < Doubles.limit)
    by (unfold Rabs in Hr; destruct (Rcase_abs r); lra).
  destruct (Rle_dec Doubles.limit r); [lra |].
  destruct (Rle_dec r (- Doubles.limit)); [lra | reflexivity].
Qed.

Lemma fit_overflow (r : R) :
  Doubles.limit <= r -> Doubles.fit r = Doubles.PInf.
Proof.
  intros Hr. unfold Doubles.fit.
  destruct (Rle_dec Doubles.limit r); [reflexivity | lra].
Qed.

(** A product with a factor of magnitude at most 1 is no larger. *)
Lemma abs_mul_unit (a u b : R) :
  Rabs a <= b -> -1 <= u <= 1 -> Rabs (a * u) <= b.
Proof.
  intros Ha Hu. rewrite Rabs_mult.
  assert (Hu' : Rabs u <= 1) by (apply Rabs_le; lra).
  pose proof (Rabs_pos a). pose proof (Rabs_pos u). nra.
Qed.

Lemma abs_add (a b ba bb : R) :
  Rabs a <= ba -> Rabs b <= bb -> Rabs (a + b) <= ba + bb.
Proof. intros Ha Hb. pose proof (Rabs_triang a b). lra. Qed.

Lemma abs_opp (a b : R) : Rabs a <= b -> Rabs (- a) <= b.
Proof. now rewrite Rabs_Ropp. Qed.

Lemma abs_scale (a f ba bf : R) :
  Rabs a <= ba -> 0 <= f <= bf -> Rabs (a * f) <= ba * bf.
Proof.
  intros Ha Hf. rewrite Rabs_mult, (Rabs_pos_eq f) by lra.
  pose proof (Rabs_pos a). nra.
Qed.

(** ** What can be raised *)

Lemma math_sin_raises (v : Doubles.double) (e : Doubles.exn) :
  Doubles.math_sin v = Doubles.Raise e -> e = Doubles.ValueError.
Proof. destruct v; cbn; congruence. Qed.

Lemma math_cos_raises (v : Doubles.double) (e : Doubles.exn) :
  Doubles.math_cos v = Doubles.Raise e -> e = Doubles.ValueError.
Proof. destruct v; cbn; congruence. Qed.

Lemma octave_term_raises (x z : Doubles.double) (octave : Octave)
    (e : Doubles.exn) :
  Doubles.octave_term x z octave = Doubles.Raise e -> e = Doubles.ValueError.
Proof.
  unfold Doubles.octave_term.
  cbn [Doubles.math_cos Doubles.math_sin Doubles.bind].
  destruct (Doubles.math_sin _) as [s | es] eqn:Hsin; cbn [Doubles.bind].
  - destruct (Doubles.math_cos _) as [c | ec] eqn:Hcos; cbn [Doubles.bind].
    + discriminate.
    + intros [= <-]. now apply math_cos_raises in Hcos.
  - intros [= <-]. now apply math_sin_raises in Hsin.
Qed.

Lemma noise_loop_raises (table : list Octave) (x z : Doubles.double)
    (e : Doubles.exn) :
  forall noise,
    Doubles.noise_loop table x z noise = Doubles.Raise e ->
    e = Doubles.ValueError.
Proof.
  induction table as [| octave rest IH]; intros noise; cbn [Doubles.noise_loop].
  - discriminate.
  - destruct (Doubles.octave_term x z octave) as [term | et] eqn:Hterm;
      cbn [Doubles.bind].
    + apply IH.
    + intros [= <-]. now apply octave_term_raises in Hterm.
Qed.

(** What [math.sqrt] returns is never below zero. *)
Lemma math_sqrt_outcome (v : Doubles.double) :
  match Doubles.math_sqrt v with
  | Doubles.Ok d => Doubles.lt d (Doubles.Fin 0) = false
  | Doubles.Raise e => e = Doubles.ValueError
  end.
Proof.
  destruct v as [r | | |]; cbn; try reflexivity.
  destruct (Rlt_dec r 0); [reflexivity |].
  cbn. pose proof (sqrt_pos r).
  destruct (Rlt_dec (sqrt r) 0); [lra | reflexivity].
Qed.

Lemma pow2_raises (v : Doubles.double) (e : Doubles.exn) :
  Doubles.pow2 v = Doubles.Raise e -> e = Doubles.OverflowError.
Proof.
  destruct v as [r | | |]; cbn; try discriminate.
  destruct (Rle_dec Doubles.limit (r * r)); congruence.
Qed.

(** ** An input on which the noise raises *)

Lemma sqrt2_inverse : 0.7 <= 1 / sqrt 2.
Proof.
  assert (H2 : 0 <= 2) by lra.
  pose proof (sqrt_sqrt 2 H2) as Hq.
  assert (Hpos : 0 < sqrt 2) by (apply sqrt_lt_R0; lra).
  set (q := sqrt 2) in *.
  assert (Hi : 0 < / q) by now apply Rinv_0_lt_compat.
  assert (Hiq : q * / q = 1) by (apply Rinv_r; lra).
  unfold Rdiv. nra.
Qed.

(** The second rotation of the first octave: its sine and cosine add up to
    more than 1.2. *)
Lemma first_octave_rotation :
  0.7 <= sin (PI / 3.7) <= 1 /\ 0.5 <= cos (PI / 3.7) <= 1.
Proof.
  pose proof PI_RGT_0 as Hpi.
  pose proof (SIN_bound (PI / 3.7)) as [_ Hs1].
  pose proof (COS_bound (PI / 3.7)) as [_ Hc1].
  assert (Hs : sin (PI / 4) <= sin (PI / 3.7)) by (apply sin_incr_1; lra).
  assert (Hc : cos (PI / 3) <= cos (PI / 3.7)) by (apply cos_decr_1; lra).
  rewrite sin_PI4 in Hs. rewrite cos_PI3 in Hc.
  pose proof sqrt2_inverse. lra.
Qed.

Lemma math_sin_outcome (v : Doubles.double) :
  (exists w, Doubles.math_sin v = Doubles.Ok w) \/
  Doubles.math_sin v = Doubles.Raise Doubles.ValueError.
Proof. destruct v; cbn; eauto. Qed.

Lemma first_octave_raises :
  Doubles.octave_term (Doubles.Fin 1.7e308) (Doubles.Fin 1.7e308)
    {| freq := 0.08; amp := 0.25; angle_x := PI / 7.3; angle_z := PI / 3.7;
       phase_x := 2.1; phase_z := 5.8 |}
  = Doubles.Raise Doubles.ValueError.
Proof.
  pose proof limit_value as Hlimit.
  destruct first_octave_rotation as [Hs Hc].
  unfold Doubles.octave_term.
  cbn [Doubles.math_cos Doubles.math_sin Doubles.bind
       angle_x angle_z phase_x phase_z freq amp].
  destruct (math_sin_outcome
              (Doubles.mul
                 (Doubles.add
                    (Doubles.sub
                       (Doubles.mul (Doubles.Fin 1.7e308)
                          (Doubles.Fin (cos (PI / 7.3))))
                       (Doubles.mul (Doubles.Fin 1.7e308)
                          (Doubles.Fin (sin (PI / 7.3)))))
                    (Doubles.Fin 2.1))
                 (Doubles.Fin 0.08))) as [[w ->] | ->];
    [| reflexivity].
  cbn [Doubles.bind Doubles.mul].
  rewrite (fit_fin (1.7e308 * sin (PI / 3.7)))
    by (apply Rle_lt_trans with (r2 := 1.7e308);
        [apply abs_mul_unit; [rewrite Rabs_pos_eq; lra | lra] | lra]).
  rewrite (fit_fin (1.7e308 * cos (PI / 3.7)))
    by (apply Rle_lt_trans with (r2 := 1.7e308);
        [apply abs_mul_unit; [rewrite Rabs_pos_eq; lra | lra] | lra]).
  cbn [Doubles.add].
  rewrite fit_overflow by lra.
  cbn [Doubles.add Doubles.mul]. unfold Doubles.scale_infinity.
  destruct (Rlt_dec 0 0.08); [reflexivity | lra].
Qed.

(** C10, as stated, fails: with a hill radius of zero, at the finite
    position [(1.7e308, 1.7e308)] the second rotated coordinate of the
    first octave is infinite and [math.cos] raises [ValueError]. *)
Lemma height_raises_on_overflow :
  1.7e308 < Doubles.limit /\
  hill_radius flat_params = 0 /\
  Doubles.calculate_terrain_height flat_params
    (Doubles.Fin 1.7e308) (Doubles.Fin 1.7e308)
  = Doubles.Raise Doubles.ValueError.
Proof.
  pose proof limit_value as Hlimit.
  split; [lra |]. split; [reflexivity |].
  unfold Doubles.calculate_terrain_height.
  cbn [Doubles.mul].
  rewrite fit_overflow by lra.
  cbn [Doubles.add Doubles.math_sqrt Doubles.bind Doubles.lt Doubles.ge
       flat_params hill_radius island_radius base_ground_level
       Doubles.sub Doubles.opp Doubles.mul].
  unfold Doubles.scale_infinity.
  destruct (Rlt_dec 0 0.1); [| lra].
  cbn [Doubles.pow2 Doubles.bind Doubles.add Doubles.opp].
  unfold Doubles.get_surface_noise, octaves.
  cbn [Doubles.noise_loop]. rewrite first_octave_raises. reflexivity.
Qed.

(** ** Inputs of ordinary size *)

Ltac fits H :=
  match type of H with
  | Rabs ?e <= _ =>
      rewrite (fit_fin e) by (eapply Rle_lt_trans; [exact H | lra])
  end.

(** On coordinates up to [1e150] nothing overflows in an octave, and its
    term is the one computed on the reals. *)
Lemma octave_term_fits (x z : R) (octave : Octave) :
  octave_ordinary octave -> Rabs x <= 1e150 -> Rabs z <= 1e150 ->
  Doubles.octave_term (Doubles.Fin x) (Doubles.Fin z) octave =
  Doubles.Ok (Doubles.Fin (octave_term x z octave)).
Proof.
  intros (Hamp & Hfreq & Hpx & Hpz) Hx Hz.
  pose proof limit_value as Hlimit.
  set (ax := angle_x octave). set (az := angle_z octave).
  assert (Hxc : Rabs (x * cos ax) <= 1e150)
    by (apply abs_mul_unit; [assumption | apply COS_bound]).
  assert (Hzs : Rabs (z * sin ax) <= 1e150)
    by (apply abs_mul_unit; [assumption | apply SIN_bound]).
  assert (Hxs : Rabs (x * sin az) <= 1e150)
    by (apply abs_mul_unit; [assumption | apply SIN_bound]).
  assert (Hzc : Rabs (z * cos az) <= 1e150)
    by (apply abs_mul_unit; [assumption | apply COS_bound]).
  assert (Hx1 : Rabs (x * cos ax + - (z * sin ax)) <= 1e150 + 1e150)
    by (apply abs_add; [assumption | now apply abs_opp]).
  assert (Hz1 : Rabs (x * sin az + z * cos az) <= 1e150 + 1e150)
    by (apply abs_add; assumption).
  assert (Hx2 : Rabs (x * cos ax + - (z * sin ax) + phase_x octave)
                <= 1e150 + 1e150 + 10) by (apply abs_add; assumption).
  assert (Hz2 : Rabs (x * sin az + z * cos az + phase_z octave)
                <= 1e150 + 1e150 + 10) by (apply abs_add; assumption).
  assert (Hx3 : Rabs ((x * cos ax + - (z * sin ax) + phase_x octave)
                      * freq octave) <= (1e150 + 1e150 + 10) * 2)
    by (apply abs_scale; assumption).
  assert (Hz3 : Rabs ((x * sin az + z * cos az + phase_z octave)
                      * freq octave) <= (1e150 + 1e150 + 10) * 2)
    by (apply abs_scale; assumption).
  pose proof (SIN_bound ((x * cos ax + - (z * sin ax) + phase_x octave)
                         * freq octave)) as Hsin.
  set (s := sin ((x * cos ax + - (z * sin ax) + phase_x octave) * freq octave))
    in *.
  set (c := cos ((x * sin az + z * cos az + phase_z octave) * freq octave)).
  assert (Hs : Rabs s <= 1) by (apply Rabs_le; lra).
  assert (Hsc : Rabs (s * c) <= 1)
    by (apply abs_mul_unit; [assumption | apply COS_bound]).
  assert (Hterm : Rabs (s * c * amp octave) <= 1 * 1)
    by (apply abs_scale; assumption).
  unfold Doubles.octave_term, Doubles.sub.
  fold ax az.
  cbn [Doubles.math_cos Doubles.math_sin Doubles.bind Doubles.mul
       Doubles.sub Doubles.opp Doubles.add].
  fits Hxc. fits Hzs.
  cbn [Doubles.opp Doubles.add]. fits Hx1.
  cbn [Doubles.add]. fits Hx2.
  cbn [Doubles.mul]. fits Hx3.
  cbn [Doubles.math_sin Doubles.bind Doubles.mul].
  fits Hxs. fits Hzc.
  cbn [Doubles.add]. fits Hz1.
  cbn [Doubles.add]. fits Hz2.
  cbn [Doubles.mul]. fits Hz3.
  cbn [Doubles.math_cos Doubles.bind Doubles.mul].
  fold s c. fits Hsc.
  cbn [Doubles.mul]. fits Hterm.
  reflexivity.
Qed.

Lemma amplitude_sum_nonneg (table : list Octave) :
  Forall octave_ordinary table -> 0 <= amplitude_sum table.
Proof.
  unfold amplitude_sum.
  induction 1 as [| o l (Ho & _) _ IHl]; cbn [fold_right]; lra.
Qed.

Lemma noise_loop_fits (x z : R) (table : list Octave) :
  Rabs x <= 1e150 -> Rabs z <= 1e150 ->
  Forall octave_ordinary table ->
  forall noise, Rabs noise + amplitude_sum table <= 1e150 ->
    Doubles.noise_loop table (Doubles.Fin x) (Doubles.Fin z) (Doubles.Fin noise) =
    Doubles.Ok (Doubles.Fin (noise_loop table x z noise)).
Proof.
  intros Hx Hz Htable. pose proof limit_value as Hlimit.
  induction Htable as [| octave rest Hoctave Hrest_ok IH]; intros noise Hnoise.
  - reflexivity.
  - cbn [Doubles.noise_loop].
    rewrite octave_term_fits by assumption.
    cbn [Doubles.bind Doubles.add].
    destruct Hoctave as (Hamp & _).
    pose proof (octave_term_bound x z octave (proj1 Hamp)) as Hterm.
    pose proof (Rabs_triang noise (octave_term x z octave)) as Htri.
    unfold amplitude_sum in Hnoise. cbn [fold_right] in Hnoise.
    fold (amplitude_sum rest) in Hnoise.
    pose proof (amplitude_sum_nonneg rest Hrest_ok) as Hrest.
    rewrite fit_fin by lra.
    rewrite IH by lra. reflexivity.
Qed.

Lemma octaves_ordinary : Forall octave_ordinary octaves.
Proof.
  unfold octaves, octave_ordinary.
  repeat constructor; cbn [amp freq phase_x phase_z];
    try lra; rewrite Rabs_pos_eq; lra.
Qed.

Lemma get_surface_noise_fits (x z : R) :
  Rabs x <= 1e150 -> Rabs z <= 1e150 ->
  Doubles.get_surface_noise (Doubles.Fin x) (Doubles.Fin z) =
  Doubles.Ok (Doubles.Fin (get_surface_noise x z)).
Proof.
  intros Hx Hz. unfold Doubles.get_surface_noise, get_surface_noise.
  apply noise_loop_fits; try assumption; [apply octaves_ordinary |].
  rewrite amplitude_sum_octaves, Rabs_R0. lra.
Qed.

Lemma abs_mul (a b ba bb : R) :
  Rabs a <= ba -> Rabs b <= bb -> Rabs (a * b) <= ba * bb.
Proof.
  intros Ha Hb. rewrite Rabs_mult.
  pose proof (Rabs_pos a). pose proof (Rabs_pos b). nra.
Qed.

(** With a hill radius of zero the hill branch, and the division in it, is
    never entered: everything up to the noise comes out as on the reals
    unless the squares overflow, and only [pow] can raise. *)
Lemma zero_hill_radius_skips_division (p : TerrainParameters)
    (x z : Doubles.double) (e : Doubles.exn) :
  hill_radius p = 0 ->
  Doubles.calculate_terrain_height p x z = Doubles.Raise e ->
  e = Doubles.ValueError \/ e = Doubles.OverflowError.
Proof.
  intros Hzero. unfold Doubles.calculate_terrain_height. rewrite Hzero.
  pose proof (math_sqrt_outcome (Doubles.add (Doubles.mul x x)
                                             (Doubles.mul z z))) as Hsqrt.
  destruct (Doubles.math_sqrt _) as [d | es]; cbn [Doubles.bind].
  - rewrite Hsqrt. cbn [Doubles.bind].
    destruct (Doubles.ge d _).
    + destruct (Doubles.pow2 _) as [square | ep] eqn:Hpow; cbn [Doubles.bind].
      * destruct (Doubles.get_surface_noise x z) as [noise | en] eqn:Hnoise;
          cbn [Doubles.bind]; [discriminate |].
        intros [= <-]. left.
        now apply noise_loop_raises in Hnoise.
      * intros [= <-]. right. now apply pow2_raises in Hpow.
    + destruct (Doubles.get_surface_noise x z) as [noise | en] eqn:Hnoise;
        cbn [Doubles.bind]; [discriminate |].
      intros [= <-]. left.
      now apply noise_loop_raises in Hnoise.
  - intros [= <-]. now left.
Qed.

(** The distance of a position of ordinary size. *)
Lemma distance_fits (x z : R) :
  Rabs x <= 1e150 -> Rabs z <= 1e150 ->
  Doubles.math_sqrt
    (Doubles.add (Doubles.mul (Doubles.Fin x) (Doubles.Fin x))
                 (Doubles.mul (Doubles.Fin z) (Doubles.Fin z))) =
  Doubles.Ok (Doubles.Fin (sqrt (x * x + z * z))) /\
  0 <= sqrt (x * x + z * z) <= 2e150.
Proof.
  intros Hx Hz. pose proof limit_value as Hlimit.
  assert (Hxx : Rabs (x * x) <= 1e150 * 1e150) by now apply abs_mul.
  assert (Hzz : Rabs (z * z) <= 1e150 * 1e150) by now apply abs_mul.
  assert (Hsum : Rabs (x * x + z * z) <= 1e150 * 1e150 + 1e150 * 1e150)
    by now apply abs_add.
  cbn [Doubles.mul]. fits Hxx. fits Hzz. cbn [Doubles.add]. fits Hsum.
  cbn [Doubles.math_sqrt].
  destruct (Rlt_dec (x * x + z * z) 0) as [Hneg | _]; [nra |].
  split; [reflexivity |].
  assert (Hnonneg : 0 <= x * x + z * z) by nra.
  pose proof (sqrt_pos (x * x + z * z)) as Hd.
  pose proof (sqrt_sqrt _ Hnonneg) as Hdd.
  apply abs_bounds in Hsum.
  set (d := sqrt (x * x + z * z)) in *.
  split; [assumption |].
  destruct (Rle_dec d 2e150) as [Hle | Hgt]; [assumption |].
  assert (2e150 * 2e150 < d * d) by nra. lra.
Qed.

(** ** A hill radius of zero *)

(** C10 (amended). Let the hill radius be zero.  At no position, finite or
    not, does [calculate_terrain_height] raise [ZeroDivisionError]: the
    guard of the hill branch never holds, so the division is not reached.
    At every position whose coordinates are at most [1e150] in magnitude
    (island radius and base ground level of that size too) it raises
    nothing and returns the base ground level, from the island radius on
    lowered by the void falloff, plus the surface noise. *)
Theorem height_zero_hill_radius (p : TerrainParameters) :
  hill_radius p = 0 ->
  (forall x z : Doubles.double,
     Doubles.calculate_terrain_height p x z
     <> Doubles.Raise Doubles.ZeroDivisionError) /\
  (forall x z : R,
     Rabs x <= 1e150 -> Rabs z <= 1e150 ->
     Rabs (island_radius p) <= 1e150 ->
     Rabs (base_ground_level p) <= 1e150 ->
     Doubles.calculate_terrain_height p (Doubles.Fin x) (Doubles.Fin z) =
     Doubles.Ok
       (Doubles.Fin
          ((if Rge_dec (sqrt (x * x + z * z)) (island_radius p)
            then base_ground_level p
                 - ((sqrt (x * x + z * z) - island_radius p) * 0.1) ^ 2
            else base_ground_level p)
           + get_surface_noise x z))).
Proof.
  intros Hzero. split.
  - intros x z Hraise.
    destruct (zero_hill_radius_skips_division p x z _ Hzero Hraise);
      discriminate.
  - intros x z Hx Hz Hisland Hbase. pose proof limit_value as Hlimit.
    destruct (distance_fits x z Hx Hz) as [Hsqrt Hd].
    pose proof (noise_within x z) as Hnoise.
    assert (Hn : Rabs (get_surface_noise x z) <= 0.54)
      by (apply Rabs_le; lra).
    unfold Doubles.calculate_terrain_height.
    rewrite Hsqrt, Hzero, get_surface_noise_fits by assumption.
    set (d := sqrt (x * x + z * z)) in *.
    assert (Hdabs : Rabs d <= 2e150) by (apply Rabs_le; lra).
    cbn [Doubles.bind Doubles.lt].
    destruct (Rlt_dec d 0) as [Hneg | _]; [lra |].
    cbn [Doubles.bind Doubles.ge].
    destruct (Rge_dec d (island_radius p)) as [Hvoid | Hland].
    + assert (Hv : Rabs (d + - island_radius p) <= 2e150 + 1e150)
        by (apply abs_add; [assumption | now apply abs_opp]).
      assert (Hs : Rabs ((d + - island_radius p) * 0.1)
                   <= (2e150 + 1e150) * 0.1)
        by (apply abs_scale; [assumption | lra]).
      assert (Hq : Rabs ((d + - island_radius p) * 0.1
                         * ((d + - island_radius p) * 0.1))
                   <= (2e150 + 1e150) * 0.1 * ((2e150 + 1e150) * 0.1))
        by now apply abs_mul.
      assert (Hh : Rabs (base_ground_level p
                         + - ((d + - island_radius p) * 0.1
                              * ((d + - island_radius p) * 0.1)))
                   <= 1e150 + (2e150 + 1e150) * 0.1 * ((2e150 + 1e150) * 0.1))
        by (apply abs_add; [assumption | now apply abs_opp]).
      pose proof (abs_add _ _ _ _ Hh Hn) as Hsum.
      cbn [Doubles.sub Doubles.opp Doubles.add]. fits Hv.
      cbn [Doubles.mul]. fits Hs.
      cbn [Doubles.pow2].
      destruct (Rle_dec Doubles.limit _) as [Hover | _];
        [apply abs_bounds in Hq; lra |].
      cbn [Doubles.bind Doubles.sub Doubles.opp Doubles.add]. fits Hh.
      cbn [Doubles.add]. fits Hsum.
      do 2 f_equal. ring.
    + pose proof (abs_add _ _ _ _ Hbase Hn) as Hsum.
      cbn [Doubles.bind Doubles.add]. fits Hsum. reflexivity.
Qed.

Lemma height_zero_hill_radius_witness :
  Doubles.calculate_terrain_height flat_params
    (Doubles.Fin 1.7e308) (Doubles.Fin 1.7e308)
  <> Doubles.Raise Doubles.ZeroDivisionError /\
  Doubles.calculate_terrain_height flat_params (Doubles.Fin 3) (Doubles.Fin 4) =
  Doubles.Ok
    (Doubles.Fin
       ((if Rge_dec (sqrt (3 * 3 + 4 * 4)) 220
         then -5 - ((sqrt (3 * 3 + 4 * 4) - 220) * 0.1) ^ 2
         else -5)
        + get_surface_noise 3 4)).
Proof.
  destruct (height_zero_hill_radius flat_params eq_refl) as [Hdiv Hvalue].
  split.
  - apply Hdiv.
  - apply (Hvalue 3 4); cbn [flat_params island_radius base_ground_level];
      apply Rabs_le; lra.
Defined.
